(** * generate_project.py: the merge-and-patch engine, embedded in Rocq

    A shallow embedding of [tools/generate_project.py]: component
    resolution, the configuration/define merge, the injection of C defines
    into generated headers and the rewrite of the generated CMake file.

    Conventions.
    - A Python [str] is a [string]; its characters are the code points below
      256.  On these, [str.isspace], [\s], [\d] and [[a-z]] under
      [re.IGNORECASE] are the ASCII classes written out below.
    - A Python exception is a constructor of [exn]; code that can raise
      returns a [result].
    - [print], [read_text] and [write_text] act on a [world] (the files and
      the standard output) threaded by the monad [M].  Files are opened in
      text mode on a POSIX system: reading turns CR LF and CR into LF,
      writing leaves LF as it is. *)

From Stdlib Require Import Ascii String List Bool Arith ZArith Lia.
From stdpp Require Import base gmap sets list strings.

Set Default Proof Using "Type".
Set Warnings "-clear-no-such-hyp".

(** ** Exceptions and results *)

Inductive exn :=
| AssertionError
| AttributeError
| IndexError
| KeyError
| ValueError
| FileNotFoundError
| FormatNotModelled
| SystemExit (code : nat).

Inductive result (A : Type) :=
| Ok (a : A)
| Raise (e : exn).
Arguments Ok {A} a.
Arguments Raise {A} e.

Definition rbind {A B} (r : result A) (k : A -> result B) : result B :=
  match r with
  | Ok a => k a
  | Raise e => Raise e
  end.

Definition rmap {A B} (f : A -> B) (r : result A) : result B :=
  rbind r (fun a => Ok (f a)).

(** ** Characters *)

Definition chr_nl : ascii := "010"%char.
Definition chr_dquote : ascii := "034"%char.
Definition chr_space : ascii := " "%char.
Definition chr_hash : ascii := "#"%char.

Definition in_range (lo hi : nat) (c : ascii) : bool :=
  (lo <=? nat_of_ascii c) && (nat_of_ascii c <=? hi).

(** [str.isspace] and the class [\s], on code points below 256:
    U+0009..U+000D, U+001C..U+0020, U+0085 and U+00A0. *)
Definition isspace (c : ascii) : bool :=
  in_range 9 13 c || in_range 28 32 c
  || (nat_of_ascii c =? 133) || (nat_of_ascii c =? 160).

(** [\d] *)
Definition isdigit (c : ascii) : bool := in_range 48 57 c.
(** [[A-Z]] *)
Definition isupper (c : ascii) : bool := in_range 65 90 c.
(** [[a-z]] *)
Definition islower (c : ascii) : bool := in_range 97 122 c.
(** [[a-z]] under [re.IGNORECASE] *)
Definition isalpha (c : ascii) : bool := isupper c || islower c.

(** ** Strings, with Python's meaning *)

Fixpoint str_len (s : string) : nat :=
  match s with
  | EmptyString => 0
  | String _ s' => S (str_len s')
  end.

Fixpoint str_take (n : nat) (s : string) : string :=
  match n, s with
  | S n', String c s' => String c (str_take n' s')
  | _, _ => EmptyString
  end.

Fixpoint str_drop (n : nat) (s : string) : string :=
  match n, s with
  | S n', String _ s' => str_drop n' s'
  | _, _ => s
  end.

(** [s.startswith(p)] *)
Fixpoint startswith (p s : string) : bool :=
  match p, s with
  | EmptyString, _ => true
  | String a p', String b s' => Ascii.eqb a b && startswith p' s'
  | String _ _, EmptyString => false
  end.

(** [sub in s] *)
Fixpoint str_in (sub s : string) : bool :=
  startswith sub s ||
  match s with
  | EmptyString => false
  | String _ s' => str_in sub s'
  end.

(** [s.find(sub)], with [None] for -1 *)
Fixpoint str_find (sub s : string) : option nat :=
  if startswith sub s then Some 0
  else match s with
       | EmptyString => None
       | String _ s' => S <$> str_find sub s'
       end.

(** [s.index(sub)] *)
Definition str_index (sub s : string) : result nat :=
  match str_find sub s with
  | Some i => Ok i
  | None => Raise ValueError
  end.

(** [s.split(sep, 1)], for a non-empty [sep] *)
Definition split_once (sep s : string) : list string :=
  match str_find sep s with
  | Some i => [str_take i s; str_drop (i + str_len sep) s]
  | None => [s]
  end.

(** [s.split(c)] for a one-character separator [c] *)
Fixpoint split_chr (c : ascii) (s : string) : list string :=
  match s with
  | EmptyString => [EmptyString]
  | String a s' =>
      if Ascii.eqb a c then EmptyString :: split_chr c s'
      else match split_chr c s' with
           | h :: t => String a h :: t
           | [] => [String a EmptyString]
           end
  end.

(** [sep.join(l)] *)
Fixpoint str_join (sep : string) (l : list string) : string :=
  match l with
  | [] => EmptyString
  | [s] => s
  | s :: rest => s +:+ sep +:+ str_join sep rest
  end.

(** [s.lstrip()], [s.rstrip()] and [s.strip()] *)
Fixpoint lstrip (s : string) : string :=
  match s with
  | EmptyString => EmptyString
  | String c s' => if isspace c then lstrip s' else s
  end.

Fixpoint rstrip (s : string) : string :=
  match s with
  | EmptyString => EmptyString
  | String c s' =>
      match rstrip s' with
      | EmptyString => if isspace c then EmptyString else String c EmptyString
      | r => String c r
      end
  end.

Definition strip (s : string) : string := rstrip (lstrip s).

(** [s.replace(old, new)] for a non-empty [old]: the occurrences are taken
    from the left and do not overlap.  [skip] counts the characters of an
    occurrence that are still to be passed over. *)
Fixpoint replace_from (old new : string) (skip : nat) (s : string) : string :=
  match s with
  | EmptyString => EmptyString
  | String c s' =>
      match skip with
      | S k => replace_from old new k s'
      | O =>
          if startswith old s
          then new +:+ replace_from old new (str_len old - 1) s'
          else String c (replace_from old new 0 s')
      end
  end.

Definition str_replace (old new s : string) : string :=
  replace_from old new 0 s.

Fixpoint take_while (p : ascii -> bool) (s : string) : string :=
  match s with
  | EmptyString => EmptyString
  | String c s' => if p c then String c (take_while p s') else EmptyString
  end.

Fixpoint drop_while (p : ascii -> bool) (s : string) : string :=
  match s with
  | EmptyString => EmptyString
  | String c s' => if p c then drop_while p s' else s
  end.

Fixpoint str_forall (p : ascii -> bool) (s : string) : bool :=
  match s with
  | EmptyString => true
  | String c s' => p c && str_forall p s'
  end.

Definition is_empty (s : string) : bool :=
  match s with
  | EmptyString => true
  | _ => false
  end.

(** ** Lists, with Python's indexing *)

(** The position an index denotes in a list of length [n]: a negative index
    counts from the end; [None] is Python's IndexError. *)
Definition py_index (n : nat) (i : Z) : option nat :=
  let j := (if i <? 0 then i + Z.of_nat n else i)%Z in
  if ((0 <=? j) && (j <? Z.of_nat n))%Z then Some (Z.to_nat j) else None.

(** [l[i]] *)
Definition getitem {A} (l : list A) (i : Z) : result A :=
  match py_index (length l) i with
  | Some k => match l !! k with Some x => Ok x | None => Raise IndexError end
  | None => Raise IndexError
  end.

(** [l[i] = x] *)
Definition setitem {A} (l : list A) (i : Z) (x : A) : result (list A) :=
  match py_index (length l) i with
  | Some k => Ok (<[k := x]> l)
  | None => Raise IndexError
  end.

(** [l.pop(i)], keeping the list that is left *)
Definition pop {A} (l : list A) (i : Z) : result (list A) :=
  match py_index (length l) i with
  | Some k => Ok (delete k l)
  | None => Raise IndexError
  end.

(** [l.remove(x)]: the first element equal to [x] goes; [None] is
    Python's ValueError. *)
Fixpoint list_remove `{EqDecision A} (x : A) (l : list A) : option (list A) :=
  match l with
  | [] => None
  | y :: l' => if decide (y = x) then Some l' else (y ::.) <$> list_remove x l'
  end.

(** ** Regular expressions

    The patterns of the source are regular: whether [re.match] accepts a
    string is decided by Brzozowski derivatives.  A character class is a
    predicate on characters. *)

Inductive regex :=
| Void
| Eps
| Cls (p : ascii -> bool)
| Cat (r s : regex)
| Alt (r s : regex)
| Star (r : regex).

Fixpoint nullable (r : regex) : bool :=
  match r with
  | Void => false
  | Eps => true
  | Cls _ => false
  | Cat r s => nullable r && nullable s
  | Alt r s => nullable r || nullable s
  | Star _ => true
  end.

Definition cat (r s : regex) : regex :=
  match r, s with
  | Void, _ => Void
  | _, Void => Void
  | Eps, _ => s
  | _, _ => Cat r s
  end.

Definition alt (r s : regex) : regex :=
  match r, s with
  | Void, _ => s
  | _, Void => r
  | _, _ => Alt r s
  end.

Fixpoint deriv (c : ascii) (r : regex) : regex :=
  match r with
  | Void => Void
  | Eps => Void
  | Cls p => if p c then Eps else Void
  | Cat r s =>
      if nullable r then alt (cat (deriv c r) s) (deriv c s)
      else cat (deriv c r) s
  | Alt r s => alt (deriv c r) (deriv c s)
  | Star r => cat (deriv c r) (Star r)
  end.

(** The whole of [s] is in the language of [r]. *)
Fixpoint fullmatch (r : regex) (s : string) : bool :=
  match s with
  | EmptyString => nullable r
  | String c s' => fullmatch (deriv c r) s'
  end.

(** [r+], [r?] and [r{lo,hi}] *)
Definition plus (r : regex) : regex := Cat r (Star r).
Definition opt (r : regex) : regex := Alt r Eps.

Fixpoint power (n : nat) (r : regex) : regex :=
  match n with
  | O => Eps
  | S n' => Cat r (power n' r)
  end.

Fixpoint upto (n : nat) (r : regex) : regex :=
  match n with
  | O => Eps
  | S n' => opt (Cat r (upto n' r))
  end.

Definition between (lo hi : nat) (r : regex) : regex :=
  Cat (power lo r) (upto (hi - lo) r).

(** One letter of the pattern under [re.IGNORECASE]: [lower] or [upper]. *)
Definition letter (lower upper : ascii) : regex :=
  Cls (fun c => Ascii.eqb c lower || Ascii.eqb c upper).

(** [.] leaves out the newline. *)
Definition dot : regex := Cls (fun c => negb (Ascii.eqb c chr_nl)).

(** A final [$] (without [re.MULTILINE]) stands at the end of the string or
    before a newline that ends it. *)
Definition dollar : regex := opt (Cls (Ascii.eqb chr_nl)).

(** ** The chip and board pattern

    Lines 25-38, compiled with re.IGNORECASE and re.VERBOSE:
<<
    ^ (?: (?:[a-z]+\d+){2,5}[a-z]*  |  brd\d+[a-z](?:_.+)? ) $
>> *)

Definition chip_regex : regex :=
  Cat (between 2 5 (Cat (plus (Cls isalpha)) (plus (Cls isdigit))))
      (Star (Cls isalpha)).

Definition board_regex : regex :=
  Cat (letter "b" "B") (Cat (letter "r" "R") (Cat (letter "d" "D")
    (Cat (plus (Cls isdigit)) (Cat (Cls isalpha)
      (opt (Cat (Cls (Ascii.eqb "_")) (plus dot))))))).

Definition CHIP_SPECIFIC_REGEX : regex :=
  Cat (Alt chip_regex board_regex) dollar.

(** [CHIP_SPECIFIC_REGEX.match(s)], as a truth value: the pattern is
    anchored at both ends. *)
Definition chip_specific (s : string) : bool :=
  fullmatch CHIP_SPECIFIC_REGEX s.

(** ** Component resolution (lines 191-208)

    A component is a mapping with the key [id]; [attrs] holds its other
    keys (the values under an injective rendering as text), so that equality
    of records is equality of the mappings. *)

Record component := Component {
  component_id : string;
  attrs : gmap string string
}.

Global Instance component_eq_dec : EqDecision component.
Proof. solve_decision. Defined.

(** [{"id": device}] *)
Definition device_component (device : string) : component :=
  Component device ∅.

(** [[c for c in component if not CHIP_SPECIFIC_REGEX.match(c["id"])]] *)
Definition strip_chip_specific (cs : list component) : list component :=
  filter (fun c => chip_specific (component_id c) = false) cs.

(** One round of the removal loop: [remove], or a warning for a component
    that is not there.  The state is the component list and the warnings
    logged so far. *)
Definition remove_component
    (st : list component * list component) (c : component)
    : list component * list component :=
  match list_remove c st.1 with
  | Some cs => (cs, st.2)
  | None => (st.1, st.2 ++ [c])
  end.

Definition resolve_components
    (base : list component) (device : string)
    (add_components remove_components : list component)
    : list component * list component :=
  let cs := strip_chip_specific base in
  let cs := cs ++ [device_component device] in
  let cs := cs ++ add_components in
  foldl remove_component (cs, []) remove_components.

(** ** Configuration and define merge (lines 210-226)

    An entry is a mapping with the keys [name] and [value]; [extra] holds
    its other keys.  The source map is given in iteration order, each value
    already in its [str] form. *)

Record config_entry := ConfigEntry {
  name : string;
  value : string;
  extra : gmap string string
}.

Global Instance config_entry_eq_dec : EqDecision config_entry.
Proof. solve_decision. Defined.

(** [config["value"] = value] *)
Definition set_value (v : string) (c : config_entry) : config_entry :=
  ConfigEntry (name c) v (extra c).

(** The inner [for ... break]: [Some] when the loop left through [break],
    [None] when it ran to its [else]. *)
Fixpoint replace_existing (n v : string) (output_config : list config_entry)
    : option (list config_entry) :=
  match output_config with
  | [] => None
  | c :: rest =>
      if decide (name c = n) then Some (set_value v c :: rest)
      else (c ::.) <$> replace_existing n v rest
  end.

Definition merge_entry (output_config : list config_entry)
    (nv : string * string) : list config_entry :=
  match replace_existing nv.1 nv.2 output_config with
  | Some cfg => cfg
  | None => output_config ++ [ConfigEntry nv.1 nv.2 ∅]
  end.

(** [for name, value in input_config.items(): ...] *)
Definition extend_config (input_config : list (string * string))
    (output_config : list config_entry) : list config_entry :=
  foldl merge_entry output_config input_config.

(** ** The world: files and standard output *)

Inductive message :=
| UsedTwice (define : string)
| Patching (config_f : string) (written_config : gmap string string)
| Unused (unused_defines : gset string).

Record world := World {
  files : gmap string string;
  stdout : list message
}.

Definition M (A : Type) : Type := world -> result A * world.

Definition ret {A} (a : A) : M A := fun w => (Ok a, w).

Definition bind {A B} (m : M A) (k : A -> M B) : M B :=
  fun w =>
    match m w with
    | (Ok a, w') => k a w'
    | (Raise e, w') => (Raise e, w')
    end.

Definition lift {A} (r : result A) : M A := fun w => (r, w).

Notation "x <- m ;; k" := (bind m (fun x => k))
  (at level 100, m at next level, right associativity).
Notation "m ;;; k" := (bind m (fun _ => k))
  (at level 100, right associativity).

Definition print (msg : message) : M unit :=
  fun w => (Ok tt, World (files w) (stdout w ++ [msg])).

Definition sys_exit {A} (code : nat) : M A := lift (Raise (SystemExit code)).

Definition chr_cr : ascii := "013"%char.

(** What text mode makes of the stored text when it is read: a carriage
    return, with the line feed that follows it if there is one, becomes one
    line feed. *)
Fixpoint universal_newlines (s : string) : string :=
  match s with
  | EmptyString => EmptyString
  | String c s' =>
      if Ascii.eqb c chr_cr then
        match s' with
        | String c' _ =>
            if Ascii.eqb c' chr_nl then universal_newlines s'
            else String chr_nl (universal_newlines s')
        | EmptyString => String chr_nl EmptyString
        end
      else String c (universal_newlines s')
  end.

Definition read_text (path : string) : M string :=
  fun w =>
    match files w !! path with
    | Some text => (Ok (universal_newlines text), w)
    | None => (Raise FileNotFoundError, w)
    end.

Definition write_text (path text : string) : M unit :=
  fun w => (Ok tt, World (<[path := text]> (files w)) (stdout w)).

(** ** The two line patterns of the injection *)

(** [re.match(r, s)] as a truth value: a prefix of [s] is in the language. *)
Definition re_match (r : regex) (s : string) : bool :=
  fullmatch (Cat r (Star (Cls (fun _ => true)))) s.

Fixpoint literal (s : string) : regex :=
  match s with
  | EmptyString => Eps
  | String c s' => Cat (Cls (Ascii.eqb c)) (literal s')
  end.

Definition dquote : string := String chr_dquote EmptyString.

(** [r'#warning ".*? not configured"'] *)
Definition warning_regex : regex :=
  Cat (literal ("#warning " +:+ dquote))
      (Cat (Star dot) (literal (" not configured" +:+ dquote))).

Definition is_guard_char (c : ascii) : bool :=
  isupper c || isdigit c || Ascii.eqb c "_".

(** [re.match(r"#ifndef\s+([A-Z0-9_]+)", s)]: group 1 of the match, or
    [None].  Both repetitions are greedy and their classes are disjoint, so
    each takes the longest run. *)
Definition match_ifndef (s : string) : option string :=
  if startswith "#ifndef" s then
    let rest := str_drop 7 s in
    let group := take_while is_guard_char (drop_while isspace rest) in
    if is_empty (take_while isspace rest) || is_empty group then None
    else Some group
  else None.

(** ** Value templates

    [template.format(git_repo_hash=...)], for templates made of text, the
    doubled braces and plain replacement fields.  A field with a conversion,
    a format specification or a lookup is outside this model. *)

Inductive format_state :=
| FText
| FOpen
| FClose
| FField (field : string).

Definition is_plain_field_char (c : ascii) : bool :=
  negb (Ascii.eqb c "!" || Ascii.eqb c ":" || Ascii.eqb c "."
        || Ascii.eqb c "[" || Ascii.eqb c "{").

(** The index that a numeric field name denotes, as [str.format] reads it
    (CPython's [get_integer], on a 64-bit build): a number that does not
    fit [Py_ssize_t] is a ValueError. *)
Definition PY_SSIZE_T_MAX : Z := (2 ^ 63 - 1)%Z.

Definition digit_value (c : ascii) : Z := (Z.of_nat (nat_of_ascii c) - 48)%Z.

Fixpoint get_integer (accumulator : Z) (s : string) : result Z :=
  match s with
  | EmptyString => Ok accumulator
  | String c s' =>
      if (accumulator >? (PY_SSIZE_T_MAX - digit_value c) / 10)%Z
      then Raise ValueError
      else get_integer (accumulator * 10 + digit_value c) s'
  end.

(** The value of one field: the keyword [git_repo_hash]; a numeric name is
    a position among the positional arguments, of which there are none. *)
Definition format_field (git_repo_hash field : string) : result string :=
  if decide (field = "git_repo_hash") then Ok git_repo_hash
  else if str_forall isdigit field
  then rbind (get_integer 0 field) (fun _ => Raise IndexError)
  else Raise KeyError.

Fixpoint format_from (git_repo_hash : string) (st : format_state)
    (s : string) : result string :=
  match s with
  | EmptyString =>
      match st with
      | FText => Ok EmptyString
      | _ => Raise ValueError
      end
  | String c s' =>
      match st with
      | FText =>
          if Ascii.eqb c "{" then format_from git_repo_hash FOpen s'
          else if Ascii.eqb c "}" then format_from git_repo_hash FClose s'
          else rmap (String c) (format_from git_repo_hash FText s')
      | FOpen =>
          if Ascii.eqb c "{"
          then rmap (String c) (format_from git_repo_hash FText s')
          else if Ascii.eqb c "}" then Raise IndexError
          else if is_plain_field_char c
          then format_from git_repo_hash (FField (String c EmptyString)) s'
          else Raise FormatNotModelled
      | FClose =>
          if Ascii.eqb c "}"
          then rmap (String c) (format_from git_repo_hash FText s')
          else Raise ValueError
      | FField field =>
          if Ascii.eqb c "}"
          then rbind (format_field git_repo_hash field) (fun v =>
               rmap (String.append v) (format_from git_repo_hash FText s'))
          else if is_plain_field_char c
          then format_from git_repo_hash
                 (FField (field +:+ String c EmptyString)) s'
          else Raise FormatNotModelled
      end
  end.

Definition format (git_repo_hash template : string) : result string :=
  format_from git_repo_hash FText template.

(** ** Define injection (lines 314-370) *)

(** The variables of the scan: the output lines and the written defines of
    the current header, and the requested names not consumed so far. *)
Record scan := Scan {
  new_config_h_lines : list string;
  written_config : gmap string string;
  unused_defines : gset string
}.

(** [f"#define {define} "] *)
Definition define_pattern (define : string) : string :=
  "#define " +:+ define +:+ " ".

(** The inner [for define, value_template in ...]: the first requested name
    whose pattern is in the line, or [None] when the loop reaches its
    [else]. *)
Fixpoint find_define (line : string) (c_defines : list (string * string))
    : option (string * string) :=
  match c_defines with
  | [] => None
  | (define, value_template) :: rest =>
      if str_in (define_pattern define) line
      then Some (define, value_template)
      else find_define line rest
  end.

(** The white space between the name and its value (lines 328-331). *)
Definition alignment_of (define line : string) : result string :=
  rbind (getitem (split_once ("#define " +:+ define) line) 1) (fun dww =>
  rbind (str_index (strip dww) dww) (fun i =>
  Ok (str_take i dww))).

Section Injection.

(** [manifest.get("c_defines", {})] in iteration order, each template in
    its [str] form; [output_project.get("define", [])]; and the value of
    the one template variable. *)
Variable c_defines : list (string * string).
Variable project_defines : list config_entry.
Variable git_repo_hash : string.

(** Lines 333-348: the line before the define, in the file as read, decides
    what happens to the lines written so far. *)
Definition patch_prev_line (config_h_lines : list string) (index : nat)
    (define : string) (new_lines : list string) : result (list string) :=
  rbind (getitem config_h_lines (Z.of_nat index - 1)) (fun prev_line =>
  if str_in "#ifndef" prev_line then
    match match_ifndef prev_line with
    | None => Raise AttributeError
    | Some guarded =>
        if decide (guarded = define) then
          if existsb (fun c => bool_decide (name c = define)) project_defines
          then Raise AssertionError
          else setitem new_lines (Z.of_nat index - 1) "#if 1"
        else Raise AssertionError
    end
  else if str_in "#warning" prev_line then
    if re_match warning_regex prev_line
    then pop new_lines (Z.of_nat index - 1)
    else Raise AssertionError
  else Ok new_lines).

(** Lines 328-360: the body of the inner loop for a line that has the
    pattern of [define]. *)
Definition patch_line (config_h_lines : list string) (st : scan)
    (index : nat) (line define value_template : string) : M scan :=
  alignment <- lift (alignment_of define line) ;;
  new_lines <- lift (patch_prev_line config_h_lines index define
                       (new_config_h_lines st)) ;;
  value <- lift (format git_repo_hash value_template) ;;
  let new_lines := new_lines ++ ["#define " +:+ define +:+ alignment +:+ value] in
  let written := <[define := value]> (written_config st) in
  if decide (define ∈ unused_defines st)
  then ret (Scan new_lines written (unused_defines st ∖ {[define]}))
  else (print (UsedTwice define) ;;; sys_exit 1).

(** One round of [for index, line in enumerate(config_h_lines)]. *)
Definition scan_line (config_h_lines : list string) (st : scan)
    (index : nat) (line : string) : M scan :=
  match find_define line c_defines with
  | Some (define, value_template) =>
      patch_line config_h_lines st index line define value_template
  | None =>
      ret (Scan (new_config_h_lines st ++ [line])
                (written_config st) (unused_defines st))
  end.

Fixpoint scan_lines (config_h_lines : list string) (index : nat)
    (rest : list string) (st : scan) : M scan :=
  match rest with
  | [] => ret st
  | line :: rest' =>
      st' <- scan_line config_h_lines st index line ;;
      scan_lines config_h_lines (S index) rest' st'
  end.

(** Lines 319-366, for one header. *)
Definition patch_header (config_f : string) (unused : gset string)
    : M (gset string) :=
  text <- read_text config_f ;;
  let config_h_lines := split_chr chr_nl text in
  st <- scan_lines config_h_lines 0 config_h_lines (Scan [] ∅ unused) ;;
  (if decide (written_config st = ∅) then ret tt
   else (print (Patching config_f (written_config st)) ;;;
         write_text config_f
           (str_join (String chr_nl EmptyString) (new_config_h_lines st)))) ;;;
  ret (unused_defines st).

Fixpoint patch_headers (headers : list string) (unused : gset string)
    : M (gset string) :=
  match headers with
  | [] => ret unused
  | config_f :: rest =>
      unused' <- patch_header config_f unused ;;
      patch_headers rest unused'
  end.

(** Lines 314-370.  [headers] are the paths that the two [glob] calls
    yield, in the order in which they are visited. *)
Definition inject_defines (headers : list string) : M unit :=
  unused <- patch_headers headers (list_to_set (c_defines.*1)) ;;
  if decide (unused = ∅) then ret tt
  else (print (Unused unused) ;;; sys_exit 1).

End Injection.

(** ** The CMake rewrite (lines 372-397) *)

(** [d[k] = v] on a dict kept in insertion order. *)
Fixpoint dict_set (k v : string) (d : list (string * string))
    : list (string * string) :=
  match d with
  | [] => [(k, v)]
  | (k', v') :: rest =>
      if decide (k' = k) then (k, v) :: rest
      else (k', v') :: dict_set k v rest
  end.

(** The dict display of lines 380-384.  A root is the text [str(path)] of
    the path object the command line gave, not yet made absolute; two path
    objects are the same key when these texts are equal. *)
Definition prefix_map (sdk build_dir toolchain : string)
    : list (string * string) :=
  dict_set toolchain "/toolchain"
    (dict_set build_dir "/src" (dict_set sdk "/gecko_sdk" [])).

(** Lines 392-393 *)
Definition needs_shell (line : string) : bool :=
  negb (str_in ">:SHELL:" line)
  && (str_in ":-imacros " line || str_in ":-x " line).

Definition fix_line (line : string) : string :=
  if needs_shell line
  then "    " +:+ dquote +:+ strip (str_replace ">:" ">:SHELL:" line) +:+ dquote
  else line.

Section AbsolutePaths.

(** [str(path.absolute())]: it depends on the working directory of the
    run, and is a parameter here. *)
Variable absolute : string -> string.

(** Lines 385-386, for each item of the dict. *)
Fixpoint prefix_map_lines (items : list (string * string))
    : result (list string) :=
  match items with
  | [] => Ok []
  | (src, dst) :: rest =>
      if str_in dquote (absolute src) then Raise AssertionError
      else rmap (cons ("    " +:+ dquote +:+ "-ffile-prefix-map="
                         +:+ absolute src +:+ "=" +:+ dst +:+ dquote))
                (prefix_map_lines rest)
  end.

(** The list [fixed_cmake] when the loop of line 391 is over. *)
Definition fixed_cmake (sdk build_dir toolchain cmake_text : string)
    : result (list string) :=
  rbind (prefix_map_lines (prefix_map sdk build_dir toolchain)) (fun block =>
  Ok (["add_compile_options("] ++ block ++ [")"]
      ++ (fix_line <$> split_chr chr_nl cmake_text))).

(** Lines 373-397 on the file [cmake_config]: the block is built, and the
    roots checked, before the file is read. *)
Definition fix_cmake (sdk build_dir toolchain cmake_config : string)
    : M unit :=
  block <- lift (prefix_map_lines (prefix_map sdk build_dir toolchain)) ;;
  text <- read_text cmake_config ;;
  write_text cmake_config
    (str_join (String chr_nl EmptyString)
       (["add_compile_options("] ++ block ++ [")"]
        ++ (fix_line <$> split_chr chr_nl text))).

End AbsolutePaths.


(** ** Notions used by the statements *)

(** The requested name that a line makes the engine consume, if any. *)
Definition consumed_by (c_defines : list (string * string)) (line : string)
    : option string :=
  fst <$> find_define line c_defines.

(** The lines of a header as the scan reads them. *)
Definition header_lines (w : world) (config_f : string) : list string :=
  match files w !! config_f with
  | Some text => split_chr chr_nl (universal_newlines text)
  | None => []
  end.

Definition scanned_lines (w : world) (headers : list string) : list string :=
  headers ≫= header_lines w.

(** How many scanned lines consume [define]. *)
Definition consumption_count (c_defines : list (string * string))
    (w : world) (headers : list string) (define : string) : nat :=
  length (filter (fun line => consumed_by c_defines line = Some define)
                 (scanned_lines w headers)).

(** The name whose second consumption comes first: the name consumed by
    the first line that consumes a name already consumed by a line before
    it ([seen] holds the names consumed so far). *)
Fixpoint first_twice (c_defines : list (string * string))
    (seen : gset string) (lines : list string) : option string :=
  match lines with
  | [] => None
  | line :: rest =>
      match consumed_by c_defines line with
      | Some d => if decide (d ∈ seen) then Some d
                  else first_twice c_defines ({[ d ]} ∪ seen) rest
      | None => first_twice c_defines seen rest
      end
  end.

(** The number that a string of decimal digits writes. *)
Fixpoint decimal_from (n : Z) (s : string) : Z :=
  match s with
  | EmptyString => n
  | String c s' => decimal_from (n * 10 + digit_value c) s'
  end.

(** The names that a diagnostic reports. *)
Definition reported (msg : message) : gset string :=
  match msg with
  | UsedTwice define => {[ define ]}
  | Unused unused => unused
  | Patching _ _ => ∅
  end.

Definition is_patching (msg : message) : Prop :=
  match msg with
  | Patching _ _ => True
  | _ => False
  end.

Definition newline : string := String chr_nl EmptyString.

(** Three views of a merge used by the proofs: the in-place update of the
    first entry called [n], the value of that entry, and the value that the
    source map gives last for [n]. *)
Fixpoint update_first (n v : string) (cfg : list config_entry)
    : list config_entry :=
  match cfg with
  | [] => []
  | c :: rest =>
      if decide (name c = n) then set_value v c :: rest
      else c :: update_first n v rest
  end.

Fixpoint first_value (n : string) (cfg : list config_entry) : option string :=
  match cfg with
  | [] => None
  | c :: rest => if decide (name c = n) then Some (value c)
                 else first_value n rest
  end.

Fixpoint last_binding (n : string) (m : list (string * string))
    : option string :=
  match m with
  | [] => None
  | (n', v') :: rest =>
      match last_binding n rest with
      | Some v => Some v
      | None => if decide (n' = n) then Some v' else None
      end
  end.

Definition is_exit (e : exn) : Prop :=
  match e with
  | SystemExit _ => True
  | _ => False
  end.

(** The names that the lines of a list make the engine consume, in order. *)
Definition consumed_names (c_defines : list (string * string))
    (lines : list string) : list string :=
  omap (consumed_by c_defines) lines.

(** The outcomes of a line.  Nothing is written; the line is copied, or it
    is consumed by a name that was unused, or the run stops: with exit
    code 1 after the one diagnostic of a second consumption, or with an
    uncaught exception and no diagnostic. *)
Inductive line_outcome (c_defines : list (string * string))
    (st : scan) (line : string) (w : world) : result scan -> world -> Prop :=
| line_copied :
    consumed_by c_defines line = None ->
    line_outcome c_defines st line w
      (Ok (Scan (new_config_h_lines st ++ [line])
                (written_config st) (unused_defines st))) w
| line_consumed define new_lines written :
    consumed_by c_defines line = Some define ->
    define ∈ unused_defines st ->
    written ≠ ∅ ->
    line_outcome c_defines st line w
      (Ok (Scan new_lines written (unused_defines st ∖ {[define]}))) w
| line_used_twice define :
    consumed_by c_defines line = Some define ->
    define ∉ unused_defines st ->
    line_outcome c_defines st line w (Raise (SystemExit 1))
      (World (files w) (stdout w ++ [UsedTwice define]))
| line_raises e :
    is_Some (consumed_by c_defines line) ->
    ~ is_exit e ->
    line_outcome c_defines st line w (Raise e) w.

(** The checks that lines 334-347 make on the line before a define: for a
    line with [#ifndef], the pattern of line 336 finds [define] as the
    guarded name and the project has no define of that name; otherwise the
    line has the shape of the warning of line 347. *)
Definition guard_checks_pass (project_defines : list config_entry)
    (define prev_line : string) : bool :=
  if str_in "#ifndef" prev_line then
    bool_decide (match_ifndef prev_line = Some define)
    && negb (existsb (fun c => bool_decide (name c = define)) project_defines)
  else re_match warning_regex prev_line.

(** The characters of a C identifier, and the lines without [#]. *)
Definition is_ident_char (c : ascii) : bool :=
  isalpha c || isdigit c || Ascii.eqb c "_".

Definition not_hash (c : ascii) : bool := negb (Ascii.eqb chr_hash c).

(** ** Overrides (lines 72-82 and 179-180) *)

Inductive override_error :=
| NotKeyJson
| InvalidJson
| UnpackError.

(** [parse_override]; [json.loads] is a parameter, [None] standing for
    [json.JSONDecodeError].  [UnpackError] is the [ValueError] of unpacking
    a list that does not have two items. *)
Definition parse_override {json : Type} (json_loads : string -> option json)
    (override : string) : override_error + (string * json) :=
  if negb (str_in "=" override) then inl NotKeyJson
  else match split_once "=" override with
       | [key; value] =>
           match json_loads value with
           | Some v => inr (key, v)
           | None => inl InvalidJson
           end
       | _ => inl UnpackError
       end.

(** [for key, override in args.overrides: manifest[key] = override] *)
Definition apply_overrides {V : Type} (manifest : gmap string V)
    (overrides : list (string * V)) : gmap string V :=
  foldl (fun m kv => <[kv.1 := kv.2]> m) manifest overrides.

(** The override that comes last for [key]. *)
Fixpoint last_override {V : Type} (key : string) (overrides : list (string * V))
    : option V :=
  match overrides with
  | [] => None
  | (k, v) :: rest =>
      match last_override key rest with
      | Some v' => Some v'
      | None => if decide (k = key) then Some v else None
      end
  end.

(** ** The synthesized project (lines 189-226)

    The keys of the base project and of the manifest that the code reads;
    [None] is a key that is not there.  A toolchain setting is a mapping. *)

Record project := Project {
  p_component : option (list component);
  p_toolchain_settings : option (list (gmap string string));
  p_configuration : option (list config_entry);
  p_define : option (list config_entry)
}.

Record manifest := Manifest {
  m_device : option string;
  m_add_components : option (list component);
  m_remove_components : option (list component);
  m_toolchain_settings : option (list (gmap string string));
  m_configuration : option (list (string * string));
  m_slcp_defines : option (list (string * string))
}.

(** [d[key]] *)
Definition subscript {A} (o : option A) : result A :=
  match o with
  | Some a => Ok a
  | None => Raise KeyError
  end.

(** Lines 189-226: the output project and the components that could not be
    removed.  The define list is extended in place when the project has
    one; without one, the list that [get] makes up is extended and lost. *)
Definition synthesize (base_project : project) (m : manifest)
    : result (project * list component) :=
  rbind (subscript (p_component base_project)) (fun base =>
  rbind (subscript (m_device m)) (fun device =>
  rbind (subscript (p_toolchain_settings base_project)) (fun settings =>
  let resolved :=
    resolve_components base device
      (default [] (m_add_components m)) (default [] (m_remove_components m)) in
  rbind (subscript (p_configuration base_project)) (fun configuration =>
  Ok (Project
        (Some resolved.1)
        (Some (settings ++ default [] (m_toolchain_settings m)))
        (Some (extend_config (default [] (m_configuration m)) configuration))
        (extend_config (default [] (m_slcp_defines m))
           <$> p_define base_project),
      resolved.2))))).

(** [output_project.get("define", [])], as line 343 reads it. *)
Definition project_defines_of (p : project) : list config_entry :=
  default [] (p_define p).

(** ** The language of a regular expression *)

Inductive matches : regex -> string -> Prop :=
| matches_eps : matches Eps EmptyString
| matches_cls p c : p c = true -> matches (Cls p) (String c EmptyString)
| matches_cat r s u v :
    matches r u -> matches s v -> matches (Cat r s) (u +:+ v)
| matches_alt_l r s u : matches r u -> matches (Alt r s) u
| matches_alt_r r s u : matches s u -> matches (Alt r s) u
| matches_star_nil r : matches (Star r) EmptyString
| matches_star_cons r u v :
    matches r u -> matches (Star r) v -> matches (Star r) (u +:+ v).

(** Every character class of [r] lies within [P]. *)
Fixpoint classes_within (P : ascii -> bool) (r : regex) : Prop :=
  match r with
  | Void | Eps => True
  | Cls p => forall c, p c = true -> P c = true
  | Cat r s | Alt r s => classes_within P r /\ classes_within P s
  | Star r => classes_within P r
  end.

Definition isalnum (c : ascii) : bool := isalpha c || isdigit c.

Definition not_brace (c : ascii) : bool :=
  negb (Ascii.eqb c "{" || Ascii.eqb c "}").

(** The characters of a replacement field that this model reads as part
    of its name. *)
Definition is_field_name_char (c : ascii) : bool :=
  is_plain_field_char c && negb (Ascii.eqb c "}").

(** * Component resolution *)

Section Resolution.

Implicit Types (c : component) (cs : list component).

Lemma list_remove_sublist c cs cs' :
  list_remove c cs = Some cs' -> cs' `sublist_of` cs.
Proof.
  revert cs'. induction cs as [|y cs IH]; intros cs' H; simpl in H.
  - discriminate.
  - destruct (decide (y = c)).
    + injection H as <-. by apply sublist_cons.
    + destruct (list_remove c cs) as [r|] eqn:E; simpl in H; [|discriminate].
      injection H as <-. apply sublist_skip. by apply IH.
Qed.

Lemma list_remove_elem_of c c' cs cs' :
  list_remove c cs = Some cs' -> c' ∈ cs -> c' ≠ c -> c' ∈ cs'.
Proof.
  revert cs'. induction cs as [|y cs IH]; intros cs' H Hin Hne; simpl in H.
  - discriminate.
  - destruct (decide (y = c)) as [->|Hy].
    + injection H as <-. apply elem_of_cons in Hin as [->|Hin]; [done|done].
    + destruct (list_remove c cs) as [r|] eqn:E; simpl in H; [|discriminate].
      injection H as <-. apply elem_of_cons in Hin as [->|Hin].
      * apply list_elem_of_here.
      * apply list_elem_of_further. by apply IH.
Qed.

Lemma list_remove_length c cs cs' :
  list_remove c cs = Some cs' -> S (length cs') = length cs.
Proof.
  revert cs'. induction cs as [|y cs IH]; intros cs' H; simpl in H.
  - discriminate.
  - destruct (decide (y = c)).
    + by injection H as <-.
    + destruct (list_remove c cs) as [r|] eqn:E; simpl in H; [|discriminate].
      injection H as <-. simpl. f_equal. by apply IH.
Qed.

Lemma list_remove_None c cs : list_remove c cs = None <-> c ∉ cs.
Proof.
  induction cs as [|y cs IH]; simpl.
  - split; [intros _; apply not_elem_of_nil | done].
  - destruct (decide (y = c)) as [->|Hy].
    + split; [done | intros H; exfalso; apply H, list_elem_of_here].
    + rewrite not_elem_of_cons. destruct (list_remove c cs); simpl.
      * split; [done | intros [_ H]; by apply IH in H].
      * split; [intros _; split; [congruence | by apply IH] | done].
Qed.

Lemma remove_component_sublist st c :
  (remove_component st c).1 `sublist_of` st.1.
Proof.
  unfold remove_component.
  destruct (list_remove c st.1) as [r|] eqn:E; simpl; [|done].
  by eapply list_remove_sublist.
Qed.

Lemma foldl_remove_sublist rs st :
  (foldl remove_component st rs).1 `sublist_of` st.1.
Proof.
  revert st. induction rs as [|r rs IH]; intros st; simpl; [done|].
  etrans; [apply IH | apply remove_component_sublist].
Qed.

Lemma foldl_remove_keeps c rs st :
  c ∈ st.1 -> c ∉ rs -> c ∈ (foldl remove_component st rs).1.
Proof.
  revert st. induction rs as [|r rs IH]; intros st Hin Hnot; simpl; [done|].
  apply not_elem_of_cons in Hnot as [Hne Hnot].
  apply IH; [|done]. unfold remove_component.
  destruct (list_remove r st.1) as [l|] eqn:E; simpl; [|done].
  by eapply list_remove_elem_of.
Qed.

Lemma strip_chip_specific_spec c cs :
  c ∈ strip_chip_specific cs <->
  chip_specific (component_id c) = false /\ c ∈ cs.
Proof.
  unfold strip_chip_specific.
  apply (list_elem_of_filter
           (fun c' => chip_specific (component_id c') = false)).
Qed.

Lemma filter_id_absent (d : string) cs :
  d ∉ component_id <$> cs ->
  filter (fun c' => component_id c' = d) cs = [].
Proof.
  induction cs as [|y cs IH]; intros Hd; [done|].
  rewrite fmap_cons in Hd. apply not_elem_of_cons in Hd as [Hne Hd].
  rewrite filter_cons. destruct (decide (component_id y = d)); [congruence|].
  by apply IH.
Qed.

Lemma filter_id_unique (d : string) cs c :
  NoDup (component_id <$> cs) -> c ∈ cs -> component_id c = d ->
  filter (fun c' => component_id c' = d) cs = [c].
Proof.
  induction cs as [|y cs IH]; intros Hnd Hin Hid.
  - by apply elem_of_nil in Hin.
  - rewrite fmap_cons in Hnd. apply NoDup_cons in Hnd as [Hy Hnd].
    rewrite filter_cons. apply elem_of_cons in Hin as [<-|Hin].
    + destruct (decide (component_id c = d)); [|done]. f_equal.
      apply filter_id_absent. by rewrite <- Hid.
    + destruct (decide (component_id y = d)) as [Hyd|Hyd].
      * exfalso. apply Hy. rewrite Hyd, <- Hid.
        apply list_elem_of_fmap. eauto.
      * by apply IH.
Qed.

End Resolution.

Lemma list_remove_Some (c : component) (cs cs' : list component) :
  list_remove c cs = Some cs' <->
  exists l1 l2, cs = l1 ++ c :: l2 /\ (c ∉ l1) /\ cs' = l1 ++ l2.
Proof.
  revert cs'. induction cs as [|y cs IH]; intros cs'; simpl.
  - split; [done|]. intros (l1 & l2 & H & _). by destruct l1.
  - destruct (decide (y = c)) as [->|Hy].
    + split.
      * intros [= <-]. exists [], cs. repeat split. apply not_elem_of_nil.
      * intros (l1 & l2 & H & Hn & ->). destruct l1 as [|z l1].
        -- simpl in H. by injection H as <-.
        -- injection H as <- _. exfalso. apply Hn, list_elem_of_here.
    + split.
      * destruct (list_remove c cs) as [r|] eqn:E; simpl; [|done].
        intros [= <-]. destruct (proj1 (IH r) eq_refl) as (l1 & l2 & -> & Hn & ->).
        exists (y :: l1), l2. repeat split.
        apply not_elem_of_cons. split; [congruence|done].
      * intros (l1 & l2 & H & Hn & ->). destruct l1 as [|z l1].
        -- simpl in H. injection H as -> _. done.
        -- injection H as -> ->. apply not_elem_of_cons in Hn as [_ Hn].
           assert (list_remove c (l1 ++ c :: l2) = Some (l1 ++ l2)) as ->; [|done].
           apply IH. eauto.
Qed.

(** C3. Resolution keeps, in their order, the base components whose
    identifier is outside the chip and board pattern, and no others; it then
    installs one device entry and the add-list in order; each entry of the
    remove-list takes away its first occurrence, or leaves the list as it is
    (with a warning) when there is none.  On the example of the
    specification the result is [bluetooth_stack; efr32fg14p231f256gm32]. *)
Theorem resolve_components_spec
    (base add_components remove_components : list component)
    (device : string) :
  let installed :=
    strip_chip_specific base ++ [device_component device] ++ add_components in
  (forall c, c ∈ strip_chip_specific base <->
             chip_specific (component_id c) = false /\ c ∈ base)
  /\ strip_chip_specific base `sublist_of` base
  /\ resolve_components base device add_components []
     = (installed, [])
  /\ resolve_components base device add_components remove_components
     = foldl remove_component (installed, []) remove_components
  /\ (forall st r, r ∈ st.1 ->
        exists l1 l2, st.1 = l1 ++ r :: l2 /\ (r ∉ l1)
                      /\ remove_component st r = (l1 ++ l2, st.2))
  /\ (forall st r, r ∉ st.1 ->
        remove_component st r = (st.1, st.2 ++ [r]))
  /\ resolve_components
       [Component "mgm210pb32jia" ∅; Component "bluetooth_stack" ∅;
        Component "led_driver" ∅]
       "efr32fg14p231f256gm32" [] [Component "led_driver" ∅]
     = ([Component "bluetooth_stack" ∅;
         Component "efr32fg14p231f256gm32" ∅], []).
Proof.
  intros installed. split; [|split; [|split; [|split; [|split; [|split]]]]].
  - intros c. apply strip_chip_specific_spec.
  - unfold strip_chip_specific.
    apply (sublist_filter (fun c => chip_specific (component_id c) = false)).
  - unfold resolve_components, installed. simpl. by rewrite <- app_assoc.
  - unfold resolve_components, installed. by rewrite <- app_assoc.
  - intros st r Hin. unfold remove_component.
    destruct (list_remove r st.1) as [l|] eqn:E.
    + apply list_remove_Some in E as (l1 & l2 & H1 & H2 & ->). eauto.
    + apply list_remove_None in E. done.
  - intros st r Hnot. unfold remove_component.
    by apply list_remove_None in Hnot as ->.
  - vm_compute. reflexivity.
Qed.

(** C4, as the code has it: when the identifiers installed before the
    removals (the surviving base components, the device and the add-list)
    are pairwise distinct and the remove-list does not name the device
    entry, the resolved list has no duplicate identifier and exactly one
    entry whose identifier is the device. *)
Theorem resolve_components_unique
    (base add_components remove_components : list component)
    (device : string) :
  NoDup (component_id <$>
           strip_chip_specific base ++ [device_component device]
           ++ add_components) ->
  device_component device ∉ remove_components ->
  let cs := (resolve_components base device add_components
               remove_components).1 in
  NoDup (component_id <$> cs)
  /\ length (filter (fun c => component_id c = device) cs) = 1.
Proof.
  intros Hnd Hdev cs.
  assert (cs = (foldl remove_component
                  (strip_chip_specific base ++ [device_component device]
                   ++ add_components, []) remove_components).1) as Hcs.
  { unfold cs, resolve_components. by rewrite <- app_assoc. }
  assert (NoDup (component_id <$> cs)) as Hnd'.
  { eapply sublist_NoDup; [exact Hnd|].
    apply fmap_sublist. rewrite Hcs.
    apply (foldl_remove_sublist remove_components
             (strip_chip_specific base ++ [device_component device]
              ++ add_components, [])). }
  split; [done|].
  rewrite (filter_id_unique device cs (device_component device)); try done.
  rewrite Hcs. apply foldl_remove_keeps; [|done]. simpl.
  apply elem_of_app. right. apply list_elem_of_here.
Qed.

Lemma resolve_components_unique_witness :
  let cs := (resolve_components
               [Component "mgm210pb32jia" ∅; Component "bluetooth_stack" ∅;
                Component "led_driver" ∅]
               "efr32fg14p231f256gm32" [] [Component "led_driver" ∅]).1 in
  NoDup (component_id <$> cs)
  /\ length (filter (fun c => component_id c = "efr32fg14p231f256gm32") cs)
     = 1.
Proof.
  apply resolve_components_unique.
  - apply (bool_decide_unpack _). vm_compute. exact I.
  - apply (bool_decide_unpack _). vm_compute. exact I.
Defined.

(** C4 as stated fails: an add-list that repeats a base component and a
    remove-list that names the device entry leave a duplicate identifier and
    no device entry. *)
Lemma resolve_components_unique_counterexample :
  let device := "efr32fg14p231f256gm32" in
  let cs := (resolve_components
               [Component "bluetooth_stack" ∅] device
               [Component "bluetooth_stack" ∅]
               [device_component device]).1 in
  ~ (NoDup (component_id <$> cs)
     /\ length (filter (fun c => component_id c = device) cs) = 1).
Proof.
  intros device cs.
  assert (cs = [Component "bluetooth_stack" ∅; Component "bluetooth_stack" ∅])
    as -> by (vm_compute; reflexivity).
  intros [_ H]. vm_compute in H. discriminate.
Qed.

(** * The configuration and define merge *)

Section Merge.

Implicit Types (cfg : list config_entry) (m : list (string * string)).

Lemma replace_existing_present n v cfg :
  n ∈ name <$> cfg -> replace_existing n v cfg = Some (update_first n v cfg).
Proof.
  induction cfg as [|c cfg IH]; simpl; intros Hin.
  - by apply elem_of_nil in Hin.
  - destruct (decide (name c = n)); [done|].
    apply elem_of_cons in Hin as [Hin|Hin]; [congruence|].
    by rewrite IH.
Qed.

Lemma replace_existing_absent n v cfg :
  n ∉ name <$> cfg -> replace_existing n v cfg = None.
Proof.
  induction cfg as [|c cfg IH]; simpl; intros Hin; [done|].
  apply not_elem_of_cons in Hin as [Hne Hin].
  destruct (decide (name c = n)); [congruence|]. by rewrite IH.
Qed.

Lemma merge_entry_present n v cfg :
  n ∈ name <$> cfg -> merge_entry cfg (n, v) = update_first n v cfg.
Proof.
  intros H. unfold merge_entry. simpl. by rewrite replace_existing_present.
Qed.

Lemma merge_entry_absent n v cfg :
  n ∉ name <$> cfg -> merge_entry cfg (n, v) = cfg ++ [ConfigEntry n v ∅].
Proof.
  intros H. unfold merge_entry. simpl. by rewrite replace_existing_absent.
Qed.

Lemma update_first_names n v cfg :
  name <$> update_first n v cfg = name <$> cfg.
Proof.
  induction cfg as [|c cfg IH]; csimpl; [done|].
  destruct (decide (name c = n)); csimpl; [done|]. by rewrite IH.
Qed.

Lemma update_first_absorb n v v' cfg :
  update_first n v (update_first n v' cfg) = update_first n v cfg.
Proof.
  induction cfg as [|c cfg IH]; simpl; [done|].
  destruct (decide (name c = n)) as [E|E]; simpl.
  - by rewrite decide_True.
  - rewrite decide_False by done. by rewrite IH.
Qed.

Lemma update_first_comm n v n' v' cfg :
  n ≠ n' ->
  update_first n v (update_first n' v' cfg)
  = update_first n' v' (update_first n v cfg).
Proof.
  intros Hne. induction cfg as [|c cfg IH]; simpl; [done|].
  destruct (decide (name c = n')) as [E'|E'];
    destruct (decide (name c = n)) as [E|E]; simpl.
  - congruence.
  - rewrite decide_False by done. by rewrite decide_True.
  - rewrite decide_True by done. by rewrite decide_False.
  - rewrite !decide_False by done. by rewrite IH.
Qed.

Lemma update_first_app_present n v cfg l :
  n ∈ name <$> cfg ->
  update_first n v (cfg ++ l) = update_first n v cfg ++ l.
Proof.
  induction cfg as [|c cfg IH]; simpl; intros Hin.
  - by apply elem_of_nil in Hin.
  - destruct (decide (name c = n)); [done|].
    apply elem_of_cons in Hin as [Hin|Hin]; [congruence|].
    by rewrite IH.
Qed.

Lemma update_first_same n v cfg :
  first_value n cfg = Some v -> update_first n v cfg = cfg.
Proof.
  induction cfg as [|c cfg IH]; simpl; [done|].
  destruct (decide (name c = n)).
  - intros [= <-]. by destruct c.
  - intros H. by rewrite IH.
Qed.

Lemma first_value_present n v cfg :
  first_value n cfg = Some v -> n ∈ name <$> cfg.
Proof.
  induction cfg as [|c cfg IH]; simpl; [done|].
  destruct (decide (name c = n)) as [<-|].
  - intros _. apply list_elem_of_here.
  - intros H. apply list_elem_of_further. by apply IH.
Qed.

Lemma last_binding_key n m :
  n ∈ m.*1 -> is_Some (last_binding n m).
Proof.
  induction m as [|[n' v'] m IH]; simpl; intros Hin.
  - by apply elem_of_nil in Hin.
  - apply elem_of_cons in Hin as [->|Hin].
    + destruct (last_binding n' m); [eauto|]. rewrite decide_True by done. eauto.
    + destruct (IH Hin) as [v ->]. eauto.
Qed.

Lemma last_binding_not_key n m :
  n ∉ m.*1 -> last_binding n m = None.
Proof.
  induction m as [|[n' v'] m IH]; simpl; intros Hin; [done|].
  apply not_elem_of_cons in Hin as [Hne Hin].
  rewrite IH by done. by rewrite decide_False.
Qed.

Lemma first_value_update_first n n' v' cfg :
  n' ∈ name <$> cfg ->
  first_value n (update_first n' v' cfg)
  = if decide (n' = n) then Some v' else first_value n cfg.
Proof.
  induction cfg as [|c cfg IH]; simpl; intros Hin.
  - by apply elem_of_nil in Hin.
  - destruct (decide (name c = n')) as [E'|E']; simpl.
    + destruct (decide (name c = n)), (decide (n' = n)); congruence.
    + apply elem_of_cons in Hin as [Hin|Hin]; [congruence|].
      rewrite IH by done.
      destruct (decide (name c = n)), (decide (n' = n)); congruence.
Qed.

Lemma first_value_append n n' v' cfg :
  n' ∉ name <$> cfg ->
  first_value n (cfg ++ [ConfigEntry n' v' ∅])
  = if decide (n' = n) then Some v' else first_value n cfg.
Proof.
  induction cfg as [|c cfg IH]; simpl; intros Hin.
  - by destruct (decide (n' = n)).
  - apply not_elem_of_cons in Hin as [Hne Hin]. rewrite IH by done.
    destruct (decide (name c = n)), (decide (n' = n)); congruence.
Qed.

Lemma first_value_merge_entry n n' v' cfg :
  first_value n (merge_entry cfg (n', v'))
  = if decide (n' = n) then Some v' else first_value n cfg.
Proof.
  destruct (decide (n' ∈ name <$> cfg)) as [Hin|Hin].
  - rewrite merge_entry_present by done. by apply first_value_update_first.
  - rewrite merge_entry_absent by done. by apply first_value_append.
Qed.

Lemma first_value_extend_config n m cfg :
  first_value n (extend_config m cfg)
  = match last_binding n m with
    | Some v => Some v
    | None => first_value n cfg
    end.
Proof.
  unfold extend_config. revert cfg.
  induction m as [|[n' v'] m IH]; intros cfg; simpl; [done|].
  rewrite IH. destruct (last_binding n m); [done|].
  rewrite first_value_merge_entry. by destruct (decide (n' = n)).
Qed.

Lemma extend_config_update_first n v m cfg :
  n ∈ name <$> cfg -> n ∈ m.*1 ->
  extend_config m (update_first n v cfg) = extend_config m cfg.
Proof.
  unfold extend_config. revert cfg.
  induction m as [|[n1 v1] m IH]; intros cfg Hcfg Hm; csimpl in *.
  - by apply elem_of_nil in Hm.
  - destruct (decide (n1 = n)) as [->|Hne].
    + rewrite !merge_entry_present by (by rewrite ?update_first_names).
      by rewrite update_first_absorb.
    + apply elem_of_cons in Hm as [Hm|Hm]; [congruence|].
      destruct (decide (n1 ∈ name <$> cfg)) as [Hin|Hin].
      * rewrite !merge_entry_present by (by rewrite ?update_first_names).
        rewrite update_first_comm by done.
        apply IH; [by rewrite update_first_names | done].
      * rewrite !merge_entry_absent by (by rewrite ?update_first_names).
        rewrite <- update_first_app_present by done.
        apply IH; [|done]. rewrite fmap_app. apply elem_of_app. by left.
Qed.

Lemma extend_config_fixed m cfg :
  (forall n v, last_binding n m = Some v -> first_value n cfg = Some v) ->
  extend_config m cfg = cfg.
Proof.
  unfold extend_config. revert cfg.
  induction m as [|[n v] m IH]; intros cfg Hinv; simpl; [done|].
  assert (forall n' v', last_binding n' m = Some v' ->
                        first_value n' cfg = Some v') as Hinv'.
  { intros n' v' H. apply Hinv. simpl. by rewrite H. }
  destruct (decide (n ∈ m.*1)) as [Hin|Hin].
  - destruct (last_binding_key n m Hin) as [v2 Hv2].
    pose proof (first_value_present _ _ _ (Hinv' _ _ Hv2)) as Hp.
    rewrite merge_entry_present by done.
    fold (extend_config m (update_first n v cfg)).
    rewrite extend_config_update_first by done. by apply IH.
  - assert (first_value n cfg = Some v) as Hv.
    { apply Hinv. simpl. rewrite last_binding_not_key by done.
      by rewrite decide_True. }
    rewrite merge_entry_present by (by eapply first_value_present).
    rewrite update_first_same by done. by apply IH.
Qed.

End Merge.

(** C5. Merging the same source map a second time changes nothing: for every
    destination sequence and every source map (given in its iteration
    order), the result of two merges is the result of one. *)
Theorem extend_config_idempotent
    (input_config : list (string * string))
    (output_config : list config_entry) :
  extend_config input_config (extend_config input_config output_config)
  = extend_config input_config output_config.
Proof.
  apply extend_config_fixed. intros n v H.
  by rewrite first_value_extend_config, H.
Qed.

(** C9. When the destination holds an entry called [n], the merge of
    [(n, v)] sets the value of the first such entry and nothing else: that
    entry becomes the entry with the name [n], the value [v] and its other
    keys as they were; the entries before and after it, later entries
    called [n] among them, stay as they are, and nothing is appended. *)
Theorem merge_replaces_first_only
    (pre post : list config_entry) (c : config_entry) (n v : string) :
  name c = n ->
  n ∉ name <$> pre ->
  merge_entry (pre ++ c :: post) (n, v)
  = pre ++ ConfigEntry n v (extra c) :: post
  /\ extend_config [(n, v)] (pre ++ c :: post)
     = pre ++ ConfigEntry n v (extra c) :: post
  /\ length (extend_config [(n, v)] (pre ++ c :: post))
     = length (pre ++ c :: post).
Proof.
  intros Hc Hpre.
  assert (merge_entry (pre ++ c :: post) (n, v)
          = pre ++ ConfigEntry n v (extra c) :: post) as Hm.
  { rewrite merge_entry_present.
    - clear -Hc Hpre. induction pre as [|y pre IH]; simpl.
      + rewrite decide_True by done. unfold set_value. by rewrite Hc.
      + apply not_elem_of_cons in Hpre as [Hne Hpre].
        rewrite decide_False by done. by rewrite IH.
    - rewrite fmap_app, fmap_cons, Hc. apply elem_of_app. right.
      apply list_elem_of_here. }
  split; [done|]. unfold extend_config. simpl. rewrite Hm.
  split; [done|]. by rewrite !length_app.
Qed.

Lemma merge_replaces_first_only_witness :
  let cfg := [ConfigEntry "RETRIES" "3" ∅;
              ConfigEntry "TX_POWER" "5" {[ "unit" := "dBm" ]};
              ConfigEntry "TX_POWER" "7" ∅] in
  let cfg' := [ConfigEntry "RETRIES" "3" ∅;
               ConfigEntry "TX_POWER" "10" {[ "unit" := "dBm" ]};
               ConfigEntry "TX_POWER" "7" ∅] in
  merge_entry cfg ("TX_POWER", "10") = cfg'
  /\ extend_config [("TX_POWER", "10")] cfg = cfg'
  /\ length (extend_config [("TX_POWER", "10")] cfg) = length cfg.
Proof.
  intros cfg cfg'.
  exact (merge_replaces_first_only
           [ConfigEntry "RETRIES" "3" ∅] [ConfigEntry "TX_POWER" "7" ∅]
           (ConfigEntry "TX_POWER" "5" {[ "unit" := "dBm" ]})
           "TX_POWER" "10" eq_refl
           ltac:(apply (bool_decide_unpack _); vm_compute; exact I)).
Defined.

(** * Define injection *)

(** The helpers raise the exceptions of Python's own operations, never
    [SystemExit]. *)

Lemma getitem_raises {A} (l : list A) i e :
  getitem l i = Raise e -> e = IndexError.
Proof.
  unfold getitem. destruct (py_index _ _); [|congruence].
  destruct (l !! _); congruence.
Qed.

Lemma setitem_raises {A} (l : list A) i x e :
  setitem l i x = Raise e -> e = IndexError.
Proof. unfold setitem. destruct (py_index _ _); congruence. Qed.

Lemma pop_raises {A} (l : list A) i e :
  pop l i = Raise e -> e = IndexError.
Proof. unfold pop. destruct (py_index _ _); congruence. Qed.

Lemma get_integer_raises n s e :
  get_integer n s = Raise e -> e = ValueError.
Proof.
  revert n. induction s as [|c s IH]; intros n; cbn [get_integer]; [done|].
  destruct (_ >? _)%Z; [by intros [= <-]|apply IH].
Qed.

Lemma format_from_raises h st s e :
  format_from h st s = Raise e -> ~ is_exit e.
Proof.
  revert st. induction s as [|c s IH]; intros st; simpl.
  - destruct st; intros [= <-]; simpl; tauto.
  - destruct st as [| | |field].
    + destruct (Ascii.eqb c "{"); [apply IH|].
      destruct (Ascii.eqb c "}"); [apply IH|].
      unfold rmap, rbind. destruct (format_from h FText s) eqn:E; [done|].
      intros [= <-]. by eapply IH.
    + destruct (Ascii.eqb c "{").
      { unfold rmap, rbind. destruct (format_from h FText s) eqn:E; [done|].
        intros [= <-]. by eapply IH. }
      destruct (Ascii.eqb c "}"); [intros [= <-]; simpl; tauto|].
      destruct (is_plain_field_char c); [apply IH|].
      intros [= <-]; simpl; tauto.
    + destruct (Ascii.eqb c "}"); [|intros [= <-]; simpl; tauto].
      unfold rmap, rbind. destruct (format_from h FText s) eqn:E; [done|].
      intros [= <-]. by eapply IH.
    + destruct (Ascii.eqb c "}").
      { unfold format_field, rmap, rbind.
        destruct (decide (field = "git_repo_hash")).
        - destruct (format_from h FText s) eqn:E; [done|].
          intros [= <-]. by eapply IH.
        - destruct (str_forall isdigit field);
            [|intros [= <-]; simpl; tauto].
          destruct (get_integer 0 field) eqn:G; intros [= <-]; [simpl; tauto|].
          apply get_integer_raises in G as ->. simpl; tauto. }
      destruct (is_plain_field_char c); [apply IH|].
      intros [= <-]; simpl; tauto.
Qed.

Lemma alignment_of_raises define line e :
  alignment_of define line = Raise e -> ~ is_exit e.
Proof.
  unfold alignment_of, rbind, str_index.
  destruct (getitem _ _) as [dww|e0] eqn:E.
  - destruct (str_find _ _); intros [= <-]; simpl; tauto.
  - intros [= <-]. apply getitem_raises in E as ->. simpl; tauto.
Qed.

Lemma patch_prev_line_raises project_defines lines index define new_lines e :
  patch_prev_line project_defines lines index define new_lines = Raise e ->
  ~ is_exit e.
Proof.
  unfold patch_prev_line, rbind.
  destruct (getitem lines _) as [prev|e0] eqn:E;
    [|intros [= <-]; apply getitem_raises in E as ->; simpl; tauto].
  destruct (str_in "#ifndef" prev).
  - destruct (match_ifndef prev); [|intros [= <-]; simpl; tauto].
    destruct (decide _); [|intros [= <-]; simpl; tauto].
    destruct (existsb _ _); [intros [= <-]; simpl; tauto|].
    intros ->%setitem_raises. simpl; tauto.
  - destruct (str_in "#warning" prev); [|done].
    destruct (re_match _ _); [|intros [= <-]; simpl; tauto].
    intros ->%pop_raises. simpl; tauto.
Qed.

Lemma find_define_Some line c_defines define template :
  find_define line c_defines = Some (define, template) ->
  (define, template) ∈ c_defines
  /\ str_in (define_pattern define) line = true.
Proof.
  induction c_defines as [|[d t] rest IH]; simpl; [done|].
  destruct (str_in (define_pattern d) line) eqn:E.
  - intros [= -> ->]. split; [apply list_elem_of_here | done].
  - intros H. destruct (IH H) as [Hin Hp].
    split; [by apply list_elem_of_further | done].
Qed.

Lemma find_define_None line c_defines :
  find_define line c_defines = None <->
  forall define template, (define, template) ∈ c_defines ->
                          str_in (define_pattern define) line = false.
Proof.
  induction c_defines as [|[d t] rest IH]; simpl.
  - split; [|done]. intros _ define template H. by apply elem_of_nil in H.
  - destruct (str_in (define_pattern d) line) eqn:E.
    + split; [done|]. intros H. rewrite (H d t) in E; [done|].
      apply list_elem_of_here.
    + rewrite IH. split.
      * intros H define template [[= -> ->]|Hin]%elem_of_cons; eauto.
      * intros H define template Hin. eapply H. by apply list_elem_of_further.
Qed.

Lemma consumed_by_key c_defines line define :
  consumed_by c_defines line = Some define -> define ∈ c_defines.*1.
Proof.
  unfold consumed_by.
  destruct (find_define line c_defines) as [[d t]|] eqn:E; [|done].
  intros [= <-]. apply find_define_Some in E as [Hin _].
  apply list_elem_of_fmap. by exists (d, t).
Qed.

(** *** The notion of a first second consumption *)

Lemma first_twice_None c_defines (seen : gset string) lines :
  first_twice c_defines seen lines = None <->
  NoDup (consumed_names c_defines lines)
  /\ (forall d, d ∈ consumed_names c_defines lines -> d ∉ seen).
Proof.
  unfold consumed_names. revert seen.
  induction lines as [|line lines IH]; intros seen; simpl.
  - split; [|done]. intros _. split; [apply NoDup_nil_2|].
    intros d Hd. by apply elem_of_nil in Hd.
  - destruct (consumed_by c_defines line) as [d|] eqn:E; [|apply IH].
    destruct (decide (d ∈ seen)) as [Hd|Hd].
    + split; [done|]. intros [_ H]. exfalso.
      by apply (H d); [apply list_elem_of_here|].
    + rewrite IH. split.
      * intros [Hnd H]. split.
        -- apply NoDup_cons. split; [|done]. intros Hd'. apply H in Hd'.
           set_solver.
        -- intros d' [->|Hd']%elem_of_cons; [done|]. apply H in Hd'.
           set_solver.
      * intros [[Hd' Hnd]%NoDup_cons H]. split; [done|]. intros d' Hin.
        assert (d' ∉ seen) by (by apply H, list_elem_of_further).
        assert (d' ≠ d) by (by intros ->). set_solver.
Qed.

Lemma first_twice_app c_defines (seen : gset string) l1 l2 :
  first_twice c_defines seen (l1 ++ l2)
  = match first_twice c_defines seen l1 with
    | Some d => Some d
    | None => first_twice c_defines
                (seen ∪ list_to_set (consumed_names c_defines l1)) l2
    end.
Proof.
  unfold consumed_names. revert seen.
  induction l1 as [|line l1 IH]; intros seen; simpl.
  - simpl. by rewrite union_empty_r_L.
  - destruct (consumed_by c_defines line) as [d|] eqn:E; [|apply IH].
    destruct (decide (d ∈ seen)); [done|]. rewrite IH.
    destruct (first_twice c_defines ({[d]} ∪ seen) l1); [done|].
    f_equal. simpl. set_solver.
Qed.

Lemma first_twice_split c_defines (seen : gset string) lines d :
  first_twice c_defines seen lines = Some d ->
  exists before line after,
    lines = before ++ line :: after
    /\ first_twice c_defines seen before = None
    /\ consumed_by c_defines line = Some d
    /\ (d ∈ seen \/ d ∈ consumed_names c_defines before).
Proof.
  unfold consumed_names. revert seen.
  induction lines as [|line lines IH]; intros seen; cbn [first_twice];
    [done|].
  destruct (consumed_by c_defines line) as [d0|] eqn:E.
  - destruct (decide (d0 ∈ seen)) as [Hd|Hd].
    + intros [= ->]. exists [], line, lines. split_and!; try done. by left.
    + intros (before & l & after & -> & Hb & Hl & Hin)%IH.
      exists (line :: before), l, after. split_and!; try done.
      * cbn [first_twice]. rewrite E. by rewrite decide_False.
      * simpl. rewrite E.
        destruct Hin as [[->%elem_of_singleton|Hin]%elem_of_union|Hin].
        -- right. apply list_elem_of_here.
        -- by left.
        -- right. by apply list_elem_of_further.
  - intros (before & l & after & -> & Hb & Hl & Hin)%IH.
    exists (line :: before), l, after. split_and!; try done.
    + cbn [first_twice]. by rewrite E.
    + simpl. by rewrite E.
Qed.

Lemma first_twice_Some c_defines lines d :
  first_twice c_defines ∅ lines = Some d <->
  exists before line after,
    lines = before ++ line :: after
    /\ NoDup (consumed_names c_defines before)
    /\ consumed_by c_defines line = Some d
    /\ d ∈ consumed_names c_defines before.
Proof.
  split.
  - intros (before & l & after & -> & Hb & Hl & Hin)%first_twice_split.
    exists before, l, after. split_and!; try done.
    + by apply first_twice_None in Hb as [? _].
    + by destruct Hin as [Hin|Hin]; [set_solver|].
  - intros (before & l & after & -> & Hnd & Hl & Hin).
    rewrite first_twice_app.
    assert (first_twice c_defines ∅ before = None) as ->.
    { apply first_twice_None. split; [done|]. set_solver. }
    cbn [first_twice]. rewrite Hl. rewrite decide_True; [done|].
    apply elem_of_union. right. by apply elem_of_list_to_set.
Qed.

Lemma count_consumed_ge c_defines lines d :
  d ∈ consumed_names c_defines lines ->
  1 <= length (filter (fun line => consumed_by c_defines line = Some d) lines).
Proof.
  unfold consumed_names. induction lines as [|line lines IH]; simpl.
  - intros H. by apply elem_of_nil in H.
  - rewrite filter_cons.
    destruct (consumed_by c_defines line) as [d'|] eqn:E.
    + intros [->|Hin]%elem_of_cons.
      * rewrite decide_True by done. simpl. lia.
      * specialize (IH Hin). destruct (decide (Some d' = Some d)); simpl; lia.
    + intros Hin. rewrite decide_False by done. by apply IH.
Qed.

Section InjectionFacts.

Variable c_defines : list (string * string).
Variable project_defines : list config_entry.
Variable git_repo_hash : string.

Local Abbreviation scan_line' :=
  (scan_line c_defines project_defines git_repo_hash).
Local Abbreviation scan_lines' :=
  (scan_lines c_defines project_defines git_repo_hash).
Local Abbreviation patch_line' := (patch_line project_defines git_repo_hash).
Local Abbreviation patch_header' :=
  (patch_header c_defines project_defines git_repo_hash).
Local Abbreviation patch_headers' :=
  (patch_headers c_defines project_defines git_repo_hash).
Local Abbreviation inject_defines' :=
  (inject_defines c_defines project_defines git_repo_hash).

Implicit Types (w : world) (st : scan) (line define : string).

(** *** One line *)

Lemma scan_line_copy lines st index line w :
  find_define line c_defines = None ->
  scan_line' lines st index line w
  = (Ok (Scan (new_config_h_lines st ++ [line])
              (written_config st) (unused_defines st)), w).
Proof. intros H. unfold scan_line. by rewrite H. Qed.

Lemma scan_line_patch lines st index line w define template :
  find_define line c_defines = Some (define, template) ->
  scan_line' lines st index line w
  = patch_line' lines st index line define template w.
Proof. intros H. unfold scan_line. by rewrite H. Qed.

Lemma patch_line_ok lines st index line w define template
    alignment new_lines v :
  alignment_of define line = Ok alignment ->
  patch_prev_line project_defines lines index define (new_config_h_lines st)
    = Ok new_lines ->
  format git_repo_hash template = Ok v ->
  define ∈ unused_defines st ->
  patch_line' lines st index line define template w
  = (Ok (Scan (new_lines ++ ["#define " +:+ define +:+ alignment +:+ v])
              (<[define := v]> (written_config st))
              (unused_defines st ∖ {[define]})), w).
Proof.
  intros Ha Hp Hf Hu. unfold patch_line, bind, lift.
  rewrite Ha, Hp, Hf. by rewrite decide_True.
Qed.

Lemma patch_line_twice lines st index line w define template
    alignment new_lines v :
  alignment_of define line = Ok alignment ->
  patch_prev_line project_defines lines index define (new_config_h_lines st)
    = Ok new_lines ->
  format git_repo_hash template = Ok v ->
  define ∉ unused_defines st ->
  patch_line' lines st index line define template w
  = (Raise (SystemExit 1),
     World (files w) (stdout w ++ [UsedTwice define])).
Proof.
  intros Ha Hp Hf Hu. unfold patch_line, bind, lift.
  rewrite Ha, Hp, Hf. by rewrite decide_False.
Qed.

Lemma scan_line_outcome lines st index line w :
  line_outcome c_defines st line w
    (scan_line' lines st index line w).1 (scan_line' lines st index line w).2.
Proof.
  unfold scan_line.
  destruct (find_define line c_defines) as [[define template]|] eqn:E.
  - assert (consumed_by c_defines line = Some define) as Hc.
    { unfold consumed_by. by rewrite E. }
    unfold patch_line, bind, lift.
    destruct (alignment_of define line) as [a|e0] eqn:Ea; simpl;
      [|apply line_raises; [by rewrite Hc | by eapply alignment_of_raises]].
    destruct (patch_prev_line _ _ _ _ _) as [nl|e0] eqn:Ep; simpl;
      [|apply line_raises; [by rewrite Hc | by eapply patch_prev_line_raises]].
    destruct (format git_repo_hash template) as [v|e0] eqn:Ef; simpl;
      [|apply line_raises; [by rewrite Hc | by eapply format_from_raises]].
    destruct (decide (define ∈ unused_defines st)); simpl.
    + apply line_consumed; [done|done|]. apply insert_non_empty.
    + by apply line_used_twice.
  - simpl. apply line_copied. unfold consumed_by. by rewrite E.
Qed.

(** *** The lines of one header *)

Lemma scan_lines_ok lines index rest st w st' w' :
  scan_lines' lines index rest st w = (Ok st', w') ->
  w' = w
  /\ NoDup (consumed_names c_defines rest)
  /\ (forall d, d ∈ consumed_names c_defines rest -> d ∈ unused_defines st)
  /\ unused_defines st'
     = unused_defines st ∖ list_to_set (consumed_names c_defines rest)
  /\ (consumed_names c_defines rest = [] ->
        written_config st' = written_config st
        /\ new_config_h_lines st' = new_config_h_lines st ++ rest)
  /\ (consumed_names c_defines rest ≠ [] -> written_config st' ≠ ∅)
  /\ (written_config st ≠ ∅ -> written_config st' ≠ ∅).
Proof.
  revert index st. induction rest as [|line rest IH]; intros index st; simpl.
  - unfold ret. intros [= <- <-]. rewrite app_nil_r.
    split_and!; try done.
    + apply NoDup_nil_2.
    + intros d Hd. by apply elem_of_nil in Hd.
    + simpl. by rewrite difference_empty_L.
  - unfold bind. pose proof (scan_line_outcome lines st index line w) as Ho.
    destruct (scan_line' lines st index line w) as [r1 w1]. simpl in Ho.
    destruct Ho as [Hc|d nl wr Hc Hd Hwr|d Hc Hd|e Hc He];
      [| |discriminate|discriminate].
    + intros H. apply IH in H as (-> & Hnd & Hin & Hu & Hnil & Hne & Hw).
      simpl in *. unfold consumed_names in *. simpl. rewrite Hc.
      split_and!; try done.
      intros Hn. destruct (Hnil Hn) as [-> ->]. by rewrite <- app_assoc.
    + intros H. apply IH in H as (-> & Hnd & Hin & Hu & Hnil & Hne & Hw).
      simpl in *. unfold consumed_names in *. simpl. rewrite Hc.
      split_and!; try done.
      * apply NoDup_cons. split; [|done]. intros Hd'.
        apply Hin in Hd'. set_solver.
      * intros d' [->|Hd']%elem_of_cons; [done|]. apply Hin in Hd'. set_solver.
      * rewrite Hu. set_solver.
      * intros _. by apply Hw.
      * intros _. by apply Hw.
Qed.

Lemma scan_lines_raise lines index rest st w e w' :
  scan_lines' lines index rest st w = (Raise e, w') ->
  files w' = files w
  /\ ((~ is_exit e /\ stdout w' = stdout w)
      \/ (e = SystemExit 1
          /\ exists d, d ∈ c_defines.*1
                       /\ stdout w' = stdout w ++ [UsedTwice d])).
Proof.
  revert index st. induction rest as [|line rest IH]; intros index st; simpl.
  - unfold ret. discriminate.
  - unfold bind. pose proof (scan_line_outcome lines st index line w) as Ho.
    destruct (scan_line' lines st index line w) as [r1 w1]. simpl in Ho.
    destruct Ho as [Hc|d nl wr Hc Hd Hwr|d Hc Hd|e' Hc He]; try by apply IH.
    + intros [= <- <-]. split; [done|]. right. split; [done|].
      exists d. split; [|done]. by eapply consumed_by_key.
    + intros [= <- <-]. split; [done|]. by left.
Qed.

(** *** One header *)

Lemma patch_header_run config_f unused w text st w1 :
  files w !! config_f = Some text ->
  scan_lines' (split_chr chr_nl (universal_newlines text)) 0
    (split_chr chr_nl (universal_newlines text))
    (Scan [] ∅ unused) w = (Ok st, w1) ->
  patch_header' config_f unused w
  = (Ok (unused_defines st),
     if decide (written_config st = ∅) then w1
     else World (<[config_f := str_join newline (new_config_h_lines st)]>
                   (files w1))
                (stdout w1 ++ [Patching config_f (written_config st)])).
Proof.
  intros Ht Hs. unfold patch_header, bind, read_text. rewrite Ht, Hs.
  by destruct (decide (written_config st = ∅)).
Qed.

Lemma patch_header_ok config_f unused w unused' w' :
  patch_header' config_f unused w = (Ok unused', w') ->
  let names := consumed_names c_defines (header_lines w config_f) in
  NoDup names
  /\ (forall d, d ∈ names -> d ∈ unused)
  /\ unused' = unused ∖ list_to_set names
  /\ (names = [] -> w' = w)
  /\ (exists patches, Forall is_patching patches
                      /\ stdout w' = stdout w ++ patches)
  /\ (forall q, q ≠ config_f -> files w' !! q = files w !! q).
Proof.
  unfold patch_header, bind, read_text, header_lines.
  destruct (files w !! config_f) as [text|] eqn:Et; [|discriminate].
  destruct (scan_lines' _ 0 _ _ w) as [[st|e] w1] eqn:Es; [|discriminate].
  apply scan_lines_ok in Es as (-> & Hnd & Hin & Hu & Hnil & Hne & _).
  simpl in *. destruct (decide (written_config st = ∅)) as [Hw|Hw].
  - unfold ret. intros [= <- <-]. split_and!; try done.
    exists []. split; [done|]. by rewrite app_nil_r.
  - unfold print, write_text, ret. simpl. intros [= <- <-]. simpl.
    split_and!; try done.
    + intros Hn. destruct (Hnil Hn) as [Hw' _]. congruence.
    + eexists [_]. split; [|done]. by apply Forall_singleton.
    + intros q Hq. by rewrite lookup_insert_ne.
Qed.

Lemma patch_header_raise config_f unused w e w' :
  patch_header' config_f unused w = (Raise e, w') ->
  files w' = files w
  /\ ((~ is_exit e /\ stdout w' = stdout w)
      \/ (e = SystemExit 1
          /\ exists d, d ∈ c_defines.*1
                       /\ stdout w' = stdout w ++ [UsedTwice d])).
Proof.
  unfold patch_header, bind, read_text.
  destruct (files w !! config_f) as [text|] eqn:Et.
  - destruct (scan_lines' _ 0 _ _ w) as [[st|e0] w1] eqn:Es.
    + destruct (decide (written_config st = ∅)); unfold print, write_text, ret;
        simpl; discriminate.
    + intros [= <- <-]. by eapply scan_lines_raise.
  - intros [= <- <-]. split; [done|]. left. split; [simpl; tauto|done].
Qed.

Lemma patch_header_frame config_f unused w r w' :
  patch_header' config_f unused w = (r, w') ->
  (forall q, q ≠ config_f -> files w' !! q = files w !! q)
  /\ (consumed_names c_defines (header_lines w config_f) = [] ->
      files w' = files w).
Proof.
  intros H. destruct r as [u|e].
  - apply patch_header_ok in H as (_ & _ & _ & Hn & _ & Hq).
    split; [done|]. intros E. by rewrite (Hn E).
  - apply patch_header_raise in H as [Hf _]. rewrite Hf. done.
Qed.

(** *** All headers *)

Lemma header_lines_frame w w' q :
  files w' !! q = files w !! q -> header_lines w' q = header_lines w q.
Proof. unfold header_lines. by intros ->. Qed.

Lemma scanned_lines_frame w w' headers :
  (forall q, q ∈ headers -> files w' !! q = files w !! q) ->
  scanned_lines w' headers = scanned_lines w headers.
Proof.
  unfold scanned_lines. induction headers as [|h headers IH]; intros H; [done|].
  rewrite !bind_cons. f_equal.
  - apply header_lines_frame, H, list_elem_of_here.
  - apply IH. intros q Hq. by apply H, list_elem_of_further.
Qed.

Lemma patch_headers_frame headers unused w r w' p :
  patch_headers' headers unused w = (r, w') ->
  p ∉ headers \/ consumed_names c_defines (header_lines w p) = [] ->
  files w' !! p = files w !! p.
Proof.
  revert unused w. induction headers as [|h headers IH]; intros unused w; simpl.
  - unfold ret. by intros [= <- <-].
  - unfold bind. destruct (patch_header' h unused w) as [[u1|e1] w1] eqn:Eh.
    + intros H Hp. apply patch_header_frame in Eh as [Hq Hn].
      assert (files w1 !! p = files w !! p) as Hw1.
      { destruct (decide (p = h)) as [->|Hne]; [|by apply Hq].
        destruct Hp as [Hp|Hp]; [|by rewrite Hn].
        exfalso. apply Hp, list_elem_of_here. }
      rewrite <- Hw1. eapply IH; [exact H|].
      destruct Hp as [Hp|Hp].
      * left. by apply not_elem_of_cons in Hp as [_ Hp].
      * right. by rewrite (header_lines_frame w w1).
    + intros [= <- <-] Hp. apply patch_header_frame in Eh as [Hq Hn].
      destruct (decide (p = h)) as [->|Hne]; [|by apply Hq].
      destruct Hp as [Hp|Hp]; [|by rewrite Hn].
      exfalso. apply Hp, list_elem_of_here.
Qed.

Lemma patch_headers_ok headers unused w unused' w' :
  NoDup headers ->
  patch_headers' headers unused w = (Ok unused', w') ->
  let names := consumed_names c_defines (scanned_lines w headers) in
  NoDup names
  /\ (forall d, d ∈ names -> d ∈ unused)
  /\ unused' = unused ∖ list_to_set names
  /\ (exists patches, Forall is_patching patches
                      /\ stdout w' = stdout w ++ patches).
Proof.
  intros Hnd. revert unused w.
  induction Hnd as [|h headers Hh Hnd IH]; intros unused w; simpl.
  - unfold ret. intros [= <- <-]. split_and!.
    + apply NoDup_nil_2.
    + intros d Hd. by apply elem_of_nil in Hd.
    + by rewrite difference_empty_L.
    + exists []. split; [done|]. by rewrite app_nil_r.
  - unfold bind. destruct (patch_header' h unused w) as [[u1|e1] w1] eqn:Eh;
      [|discriminate].
    intros H. cbv zeta.
    apply patch_header_ok in Eh as (Hnd1 & Hin1 & -> & _ & Hp1 & Hq).
    apply IH in H as (Hnd2 & Hin2 & -> & Hp2).
    assert (scanned_lines w1 headers = scanned_lines w headers) as Hsl.
    { apply scanned_lines_frame. intros q Hq'. apply Hq. by intros ->. }
    rewrite Hsl in Hnd2, Hin2 |- *.
    unfold scanned_lines, consumed_names in *. rewrite omap_app.
    split_and!.
    + apply NoDup_app. split_and!; [done| |done].
      intros d Hd1 Hd2. apply Hin2 in Hd2. set_solver.
    + intros d [Hd|Hd]%elem_of_app; [by apply Hin1|].
      apply Hin2 in Hd. set_solver.
    + rewrite list_to_set_app_L. set_solver.
    + destruct Hp1 as (p1 & Hf1 & E1), Hp2 as (p2 & Hf2 & E2).
      exists (p1 ++ p2). split; [by apply Forall_app|].
      by rewrite E2, E1, app_assoc.
Qed.

Lemma patch_headers_raise headers unused w e w' :
  patch_headers' headers unused w = (Raise e, w') ->
  exists patches, Forall is_patching patches
    /\ ((~ is_exit e /\ stdout w' = stdout w ++ patches)
        \/ (e = SystemExit 1
            /\ exists d, d ∈ c_defines.*1
                 /\ stdout w' = stdout w ++ patches ++ [UsedTwice d])).
Proof.
  revert unused w. induction headers as [|h headers IH]; intros unused w; simpl.
  - unfold ret. discriminate.
  - unfold bind. destruct (patch_header' h unused w) as [[u1|e1] w1] eqn:Eh.
    + intros H. apply IH in H as (p2 & Hf2 & H).
      assert (exists p1, Forall is_patching p1 /\ stdout w1 = stdout w ++ p1)
        as (p1 & Hf1 & E1).
      { by apply patch_header_ok in Eh as (_ & _ & _ & _ & Hp & _). }
      exists (p1 ++ p2). split; [by apply Forall_app|].
      destruct H as [[He E2]|(-> & d & Hd & E2)].
      * left. split; [done|]. by rewrite E2, E1, app_assoc.
      * right. split; [done|]. exists d. split; [done|].
        by rewrite E2, E1, !app_assoc.
    + intros [= <- <-]. apply patch_header_raise in Eh as [_ H].
      exists []. split; [done|]. simpl.
      destruct H as [[He E]|(-> & d & Hd & E)].
      * left. by rewrite app_nil_r.
      * right. split; [done|]. by exists d.
Qed.

(** *** The first second consumption *)

Lemma scan_lines_exit lines index rest st w e w' (seen : gset string) :
  scan_lines' lines index rest st w = (Raise e, w') ->
  is_exit e ->
  unused_defines st = list_to_set (c_defines.*1) ∖ seen ->
  exists d, first_twice c_defines seen rest = Some d
            /\ stdout w' = stdout w ++ [UsedTwice d].
Proof.
  revert index st seen.
  induction rest as [|line rest IH]; intros index st seen;
    cbn [scan_lines first_twice].
  - unfold ret. discriminate.
  - unfold bind. pose proof (scan_line_outcome lines st index line w) as Ho.
    destruct (scan_line' lines st index line w) as [r1 w1]. simpl in Ho.
    destruct Ho as [Hc|d nl wr Hc Hd Hwr|d Hc Hd|e' Hc He].
    + intros H Hex Hu. rewrite Hc. by eapply IH.
    + intros H Hex Hu. rewrite Hc.
      rewrite decide_False by (rewrite Hu in Hd; set_solver).
      eapply IH; [exact H|done|]. simpl. rewrite Hu. set_solver.
    + intros [= <- <-] _ Hu. rewrite Hc.
      assert (d ∈ seen) as Hs.
      { destruct (decide (d ∈ seen)) as [|Hn]; [done|]. exfalso. apply Hd.
        rewrite Hu. apply elem_of_difference. split; [|done].
        apply elem_of_list_to_set. by eapply consumed_by_key. }
      rewrite decide_True by done. by exists d.
    + intros [= <- <-] Hex. done.
Qed.

Lemma patch_header_exit config_f unused w e w' (seen : gset string) :
  patch_header' config_f unused w = (Raise e, w') ->
  is_exit e ->
  unused = list_to_set (c_defines.*1) ∖ seen ->
  exists d, first_twice c_defines seen (header_lines w config_f) = Some d
            /\ stdout w' = stdout w ++ [UsedTwice d].
Proof.
  unfold patch_header, bind, read_text, header_lines.
  destruct (files w !! config_f) as [text|] eqn:Et.
  - destruct (scan_lines' _ 0 _ _ w) as [[st|e0] w1] eqn:Es.
    + destruct (decide (written_config st = ∅)); unfold print, write_text, ret;
        simpl; discriminate.
    + intros [= <- <-] Hex Hu. by eapply scan_lines_exit.
  - intros [= <- <-] Hex. done.
Qed.

Lemma patch_headers_exit headers unused w e w' (seen : gset string) :
  NoDup headers ->
  patch_headers' headers unused w = (Raise e, w') ->
  is_exit e ->
  unused = list_to_set (c_defines.*1) ∖ seen ->
  exists patches d,
    Forall is_patching patches
    /\ first_twice c_defines seen (scanned_lines w headers) = Some d
    /\ stdout w' = stdout w ++ patches ++ [UsedTwice d].
Proof.
  intros Hnd. revert unused w seen.
  induction Hnd as [|h headers Hh Hnd IH]; intros unused w seen;
    cbn [patch_headers].
  - unfold ret. discriminate.
  - unfold bind. destruct (patch_header' h unused w) as [[u1|e1] w1] eqn:Eh.
    + intros H Hex Hu.
      apply patch_header_ok in Eh
        as (Hnd1 & Hin1 & -> & _ & (p1 & Hf1 & E1) & Hq).
      apply (IH _ _ (seen ∪ list_to_set
                       (consumed_names c_defines (header_lines w h)))) in H
        as (p2 & d & Hf2 & Hft & E2); [|done|rewrite Hu; set_solver].
      exists (p1 ++ p2), d. split_and!.
      * by apply Forall_app.
      * unfold scanned_lines. rewrite bind_cons, first_twice_app.
        assert (first_twice c_defines seen (header_lines w h) = None) as ->.
        { apply first_twice_None. split; [done|].
          intros d' Hd'. apply Hin1 in Hd'. rewrite Hu in Hd'. set_solver. }
        rewrite <- Hft. f_equal. symmetry.
        apply scanned_lines_frame. intros q Hq'. apply Hq. by intros ->.
      * by rewrite E2, E1, !app_assoc.
    + intros [= <- <-] Hex Hu.
      eapply patch_header_exit in Eh as (d & Hft & E); [|done|done].
      exists [], d. split_and!; [done| |done].
      unfold scanned_lines. by rewrite bind_cons, first_twice_app, Hft.
Qed.

End InjectionFacts.

(** *** The whole run *)

Lemma inject_defines_inv c_defines project_defines git_repo_hash
    headers w r w' :
  inject_defines c_defines project_defines git_repo_hash headers w = (r, w') ->
  (exists unused,
     patch_headers c_defines project_defines git_repo_hash headers
       (list_to_set (c_defines.*1)) w = (Ok unused, w')
     /\ unused = ∅ /\ r = Ok tt)
  \/ (exists unused w1,
        patch_headers c_defines project_defines git_repo_hash headers
          (list_to_set (c_defines.*1)) w = (Ok unused, w1)
        /\ unused ≠ ∅ /\ r = Raise (SystemExit 1)
        /\ w' = World (files w1) (stdout w1 ++ [Unused unused]))
  \/ (exists e,
        patch_headers c_defines project_defines git_repo_hash headers
          (list_to_set (c_defines.*1)) w = (Raise e, w')
        /\ r = Raise e).
Proof.
  unfold inject_defines, bind.
  destruct (patch_headers _ _ _ _ _ w) as [[unused|e] w1].
  - destruct (decide (unused = ∅)) as [->|Hne].
    + unfold ret. intros [= <- <-]. left. by exists ∅.
    + unfold print, sys_exit, lift. simpl. intros [= <- <-].
      right; left. by exists unused, w1.
  - intros [= <- <-]. right; right. by exists e.
Qed.

Lemma consumed_names_nil c_defines lines :
  Forall (fun line => forall define template,
            (define, template) ∈ c_defines ->
            str_in (define_pattern define) line = false) lines ->
  consumed_names c_defines lines = [].
Proof.
  unfold consumed_names. induction 1 as [|line lines H _ IH]; [done|].
  simpl. unfold consumed_by at 1.
  apply find_define_None in H as ->. done.
Qed.

Lemma consumed_names_cons_inv c_defines lines :
  consumed_names c_defines lines ≠ [] ->
  exists line define, line ∈ lines
                      /\ consumed_by c_defines line = Some define.
Proof.
  unfold consumed_names. induction lines as [|line lines IH]; [done|].
  simpl. destruct (consumed_by c_defines line) as [d|] eqn:E.
  - intros _. exists line, d. split; [apply list_elem_of_here|done].
  - intros H. destruct (IH H) as (l & d & Hl & Hd).
    exists l, d. split; [by apply list_elem_of_further|done].
Qed.

Lemma count_consumed c_defines lines d :
  NoDup (consumed_names c_defines lines) ->
  length (filter (fun line => consumed_by c_defines line = Some d) lines)
  = if decide (d ∈ consumed_names c_defines lines) then 1 else 0.
Proof.
  unfold consumed_names. induction lines as [|line lines IH]; simpl.
  - done.
  - rewrite filter_cons.
    destruct (consumed_by c_defines line) as [d'|] eqn:E.
    + intros [Hd' Hnd]%NoDup_cons. specialize (IH Hnd).
      destruct (decide (Some d' = Some d)) as [[= ->]|Hne].
      * simpl. rewrite IH. rewrite decide_False by done.
        rewrite decide_True; [done|apply list_elem_of_here].
      * rewrite IH. destruct (decide (d ∈ omap _ lines)) as [Hin|Hin].
        -- rewrite decide_True; [done|by apply list_elem_of_further].
        -- rewrite decide_False; [done|].
           apply not_elem_of_cons. split; [congruence|done].
    + intros Hnd. rewrite decide_False by done. by apply IH.
Qed.

(** C10. A path that is not scanned, or a scanned header none of whose
    lines has the pattern of a requested name, holds after the run (however
    the run ends) the text it held before; so a file whose text changed was
    scanned and has a line that a requested name consumes. *)
Theorem unmatched_header_untouched
    (c_defines : list (string * string)) (project_defines : list config_entry)
    (git_repo_hash : string) (headers : list string) (w w' : world)
    (r : result unit) (p : string) :
  inject_defines c_defines project_defines git_repo_hash headers w = (r, w') ->
  (p ∉ headers
   \/ Forall (fun line => forall define template,
               (define, template) ∈ c_defines ->
               str_in (define_pattern define) line = false)
             (header_lines w p) ->
   files w' !! p = files w !! p)
  /\ (files w' !! p ≠ files w !! p ->
      p ∈ headers
      /\ exists line define,
           line ∈ header_lines w p
           /\ consumed_by c_defines line = Some define
           /\ str_in (define_pattern define) line = true).
Proof.
  intros Hrun.
  assert (exists r1 w1,
            patch_headers c_defines project_defines git_repo_hash headers
              (list_to_set (c_defines.*1)) w = (r1, w1)
            /\ files w' = files w1) as (r1 & w1 & Hph & Hf).
  { apply inject_defines_inv in Hrun
      as [(u & H & _)|[(u & w1 & H & _ & _ & ->)|(e & H & _)]]; eauto. }
  rewrite Hf.
  assert (p ∉ headers \/ consumed_names c_defines (header_lines w p) = [] ->
          files w1 !! p = files w !! p) as Hframe.
  { by eapply patch_headers_frame. }
  split.
  - intros [Hp|Hp]; apply Hframe; [by left|right].
    by apply consumed_names_nil.
  - intros Hne.
    destruct (decide (p ∈ headers)) as [Hin|Hin]; [|by destruct Hne; auto].
    split; [done|].
    destruct (decide (consumed_names c_defines (header_lines w p) = []))
      as [En|En]; [by destruct Hne; auto|].
    apply consumed_names_cons_inv in En as (line & d & Hl & Hd).
    exists line, d. split_and!; [done|done|].
    unfold consumed_by in Hd.
    destruct (find_define line c_defines) as [[d' t]|] eqn:E; [|done].
    injection Hd as ->. by apply find_define_Some in E as [_ ?].
Qed.

Lemma unmatched_header_untouched_witness :
  let w := World {[ "autogen/a.h" := "#define FOOBAR 1";
                    "config/b.h" := "#define FOO 1" ]} [] in
  let run := inject_defines [("FOO", "2")] [] "0123abcd"
               ["autogen/a.h"; "config/b.h"] w in
  files run.2 !! "autogen/a.h" = files w !! "autogen/a.h".
Proof.
  intros w run.
  refine (proj1 (unmatched_header_untouched [("FOO", "2")] [] "0123abcd"
                   ["autogen/a.h"; "config/b.h"] w run.2 run.1
                   "autogen/a.h" _) _).
  - vm_compute. reflexivity.
  - right. vm_compute. constructor; [|constructor].
    intros define template Hin. apply list_elem_of_In in Hin.
    destruct Hin as [[= <- <-]|[]]. reflexivity.
Defined.




Lemma no_project_define (project_defines : list config_entry) define :
  Forall (fun c => name c ≠ define) project_defines ->
  existsb (fun c => bool_decide (name c = define)) project_defines = false.
Proof.
  induction 1 as [|c cs Hc _ IH]; simpl; [done|].
  by rewrite bool_decide_eq_false_2.
Qed.

(** C1. The header of the three lines [#ifndef FOO], [#define FOO 1],
    [#endif], with the one requested define [FOO] of template [2] and no
    define called [FOO] in the project: the scan yields the three lines
    [#if 1], [#define FOO 2], [#endif], takes [FOO] out of the unused names
    and records it as written; the run rewrites the file to these lines and
    ends well; one line of the header consumes [FOO]. *)
Theorem inject_foo_example
    (project_defines : list config_entry)
    (git_repo_hash config_f : string) (out : list message) :
  Forall (fun c => name c ≠ "FOO") project_defines ->
  let header := ["#ifndef FOO"; "#define FOO 1"; "#endif"] in
  let patched := ["#if 1"; "#define FOO 2"; "#endif"] in
  let w := World {[ config_f := str_join newline header ]} out in
  scan_lines [("FOO", "2")] project_defines git_repo_hash header 0 header
    (Scan [] ∅ {[ "FOO" ]}) w
  = (Ok (Scan patched {[ "FOO" := "2" ]} ∅), w)
  /\ inject_defines [("FOO", "2")] project_defines git_repo_hash [config_f] w
     = (Ok tt,
        World {[ config_f := str_join newline patched ]}
              (out ++ [Patching config_f {[ "FOO" := "2" ]}]))
  /\ consumption_count [("FOO", "2")] w [config_f] "FOO" = 1.
Proof.
  intros Hp header patched w. apply no_project_define in Hp.
  assert (scan_lines [("FOO", "2")] project_defines git_repo_hash header 0
            header (Scan [] ∅ {[ "FOO" ]}) w
          = (Ok (Scan patched {[ "FOO" := "2" ]} ∅), w)) as Hscan.
  { unfold header. cbn [scan_lines]. unfold bind at 1.
    rewrite scan_line_copy by reflexivity. cbn [new_config_h_lines
      written_config unused_defines app]. unfold bind at 1.
    rewrite scan_line_patch with (define := "FOO") (template := "2")
      by reflexivity.
    rewrite patch_line_ok
      with (alignment := " ") (new_lines := ["#if 1"]) (v := "2").
    - cbn [new_config_h_lines written_config unused_defines app].
      unfold bind at 1. rewrite scan_line_copy by reflexivity.
      cbn [new_config_h_lines written_config unused_defines app scan_lines].
      unfold ret. rewrite insert_empty, difference_diag_L. reflexivity.
    - reflexivity.
    - cbn [new_config_h_lines]. unfold patch_prev_line. rewrite Hp.
      reflexivity.
    - reflexivity.
    - cbn [unused_defines]. by apply elem_of_singleton. }
  split; [done|]. split.
  - unfold inject_defines, patch_headers, bind.
    cbn [fmap list_fmap fst list_to_set foldr]. rewrite union_empty_r_L.
    rewrite patch_header_run
      with (text := str_join newline header)
           (st := Scan patched {[ "FOO" := "2" ]} ∅) (w1 := w);
      [|apply lookup_singleton_eq|exact Hscan].
    cbn [written_config unused_defines new_config_h_lines].
    rewrite decide_False by apply insert_non_empty.
    unfold ret. rewrite decide_True by done. unfold w. cbn [files stdout].
    by rewrite insert_singleton_eq.
  - unfold consumption_count, scanned_lines, header_lines, w.
    cbn [mbind list_bind files]. rewrite lookup_singleton_eq. reflexivity.
Qed.

Lemma inject_foo_example_witness :
  let header := ["#ifndef FOO"; "#define FOO 1"; "#endif"] in
  let patched := ["#if 1"; "#define FOO 2"; "#endif"] in
  let w := World {[ "config/foo.h" := str_join newline header ]} [] in
  scan_lines [("FOO", "2")] [ConfigEntry "BAR" "1" ∅] "0123abcd" header 0
    header (Scan [] ∅ {[ "FOO" ]}) w
  = (Ok (Scan patched {[ "FOO" := "2" ]} ∅), w)
  /\ inject_defines [("FOO", "2")] [ConfigEntry "BAR" "1" ∅] "0123abcd"
       ["config/foo.h"] w
     = (Ok tt,
        World {[ "config/foo.h" := str_join newline patched ]}
              ([] ++ [Patching "config/foo.h" {[ "FOO" := "2" ]}]))
  /\ consumption_count [("FOO", "2")] w ["config/foo.h"] "FOO" = 1.
Proof.
  apply (inject_foo_example [ConfigEntry "BAR" "1" ∅] "0123abcd"
           "config/foo.h" []).
  apply (bool_decide_unpack _). vm_compute. exact I.
Defined.

(** * Strings *)

Section Strings.

Implicit Types (s t p q : string) (c : ascii).

Lemma app_cons c s t : String c s +:+ t = String c (s +:+ t).
Proof. reflexivity. Qed.

Lemma app_empty_l t : EmptyString +:+ t = t.
Proof. reflexivity. Qed.

Lemma app_empty_r s : s +:+ EmptyString = s.
Proof. induction s as [|c s IH]; [done|]. by rewrite app_cons, IH. Qed.

Lemma str_app_assoc s t p : (s +:+ t) +:+ p = s +:+ (t +:+ p).
Proof. induction s as [|c s IH]; [done|]. by rewrite !app_cons, IH. Qed.

Lemma startswith_app_same p q t :
  startswith (p +:+ q) (p +:+ t) = startswith q t.
Proof.
  induction p as [|c p IH]; [done|]. rewrite !app_cons. simpl.
  by rewrite Ascii.eqb_refl, IH.
Qed.

Lemma startswith_app_l p q s :
  startswith (p +:+ q) s = true -> startswith p s = true.
Proof.
  revert s. induction p as [|c p IH]; intros s; [done|].
  rewrite app_cons. destruct s as [|c' s]; simpl; [done|].
  intros [-> H]%andb_true_iff. by rewrite (IH _ H).
Qed.

Lemma startswith_self s t : startswith s (s +:+ t) = true.
Proof.
  induction s as [|c s IH]; [done|]. rewrite app_cons. simpl.
  by rewrite Ascii.eqb_refl.
Qed.

Lemma str_in_app_l p q s :
  str_in (p +:+ q) s = true -> str_in p s = true.
Proof.
  induction s as [|c s IH]; simpl.
  - rewrite !orb_false_r. apply startswith_app_l.
  - intros [H|H]%orb_true_iff; apply orb_true_iff.
    + left. by eapply startswith_app_l.
    + right. by apply IH.
Qed.

Lemma startswith_str_in p s : startswith p s = true -> str_in p s = true.
Proof. intros H. destruct s; simpl; by rewrite H. Qed.

Lemma str_in_find p s :
  str_in p s = true <-> is_Some (str_find p s).
Proof.
  induction s as [|c s IH]; simpl.
  - rewrite orb_false_r. destruct (startswith p EmptyString).
    + split; eauto.
    + split; [done|]. by intros [? ?].
  - destruct (startswith p (String c s)); simpl.
    + split; eauto.
    + rewrite IH. destruct (str_find p s); simpl; split; eauto.
Qed.

Lemma str_in_skip p pre s :
  str_in p s = true -> str_in p (pre +:+ s) = true.
Proof.
  intros H. induction pre as [|c pre IH]; [done|].
  rewrite app_cons. simpl. rewrite IH. apply orb_true_r.
Qed.

Lemma str_forall_app f s t :
  str_forall f (s +:+ t) = str_forall f s && str_forall f t.
Proof.
  induction s as [|c s IH]; [done|]. rewrite app_cons. simpl.
  by rewrite IH, andb_assoc.
Qed.

(** A pattern that starts with a character is nowhere in a string that
    does not have that character. *)
Lemma str_in_absent_head c p s :
  str_forall (fun a => negb (Ascii.eqb c a)) s = true ->
  str_in (String c p) s = false.
Proof.
  induction s as [|a s IH]; simpl; [done|].
  intros [Ha Hs]%andb_true_iff. apply negb_true_iff in Ha.
  rewrite Ha. simpl. by apply IH.
Qed.

Lemma str_in_after_prefix c p pre s :
  str_forall (fun a => negb (Ascii.eqb c a)) pre = true ->
  str_in (String c p) (pre +:+ s) = str_in (String c p) s.
Proof.
  induction pre as [|a pre IH]; [done|]. rewrite app_cons. simpl.
  intros [Ha Hs]%andb_true_iff. apply negb_true_iff in Ha.
  rewrite Ha. simpl. by apply IH.
Qed.

Lemma lstrip_str_in p s : str_in p (lstrip s) = true -> str_in p s = true.
Proof.
  induction s as [|c s IH]; simpl; [done|].
  destruct (isspace c); [|done].
  intros H. rewrite (IH H). apply orb_true_r.
Qed.

Lemma startswith_rstrip s : startswith (rstrip s) s = true.
Proof.
  induction s as [|c s IH]; simpl; [done|].
  destruct (rstrip s) as [|c' r] eqn:E.
  - destruct (isspace c); simpl; [done|]. by rewrite Ascii.eqb_refl.
  - simpl. by rewrite Ascii.eqb_refl.
Qed.

Lemma strip_str_in s : str_in (strip s) s = true.
Proof.
  unfold strip. apply lstrip_str_in, startswith_str_in, startswith_rstrip.
Qed.

End Strings.

Lemma alignment_of_ok define line :
  str_in (define_pattern define) line = true ->
  exists alignment, alignment_of define line = Ok alignment.
Proof.
  unfold define_pattern. rewrite <- str_app_assoc.
  intros [i Hi]%str_in_app_l%str_in_find.
  unfold alignment_of, split_once, rbind. rewrite Hi.
  change (getitem [_; ?x] 1) with (Ok x).
  unfold str_index.
  destruct (proj1 (str_in_find _ _) (strip_str_in
    (str_drop (i + str_len ("#define " +:+ define)) line))) as [j ->].
  eauto.
Qed.

(** * A define on the first line of a header *)

Lemma getitem_minus_one {A} (l : list A) (x : A) :
  last l = Some x -> getitem l (-1) = Ok x.
Proof.
  intros H. unfold getitem, py_index.
  destruct l as [|y l]; [done|].
  rewrite last_lookup in H. simpl length in *. simpl Nat.pred in H.
  replace (-1 <? 0)%Z with true by done.
  replace (-1 + Z.of_nat (S (length l)))%Z with (Z.of_nat (length l)) by lia.
  rewrite (proj2 (Z.leb_le 0 _)) by lia.
  rewrite (proj2 (Z.ltb_lt _ _)) by lia.
  simpl andb. cbv iota. rewrite Nat2Z.id. by rewrite H.
Qed.

(** C8, as the code has it.  For a define on the first line of a header
    the line inspected as the preceding one is the last line of the file.
    When that line has [#ifndef] or [#warning], the header is left as it is
    and the run stops with an uncaught exception and no diagnostic: an
    index error, from the rewrite or the removal on the empty list of
    output lines, when the line passes the checks made on it; when it does
    not, an attribute error if it has [#ifndef] and the guard pattern does
    not match at its start, and an assertion error in every other case. *)
Theorem first_line_define_wraps
    (c_defines : list (string * string)) (project_defines : list config_entry)
    (git_repo_hash config_f : string) (others : list string)
    (unused : gset string) (w : world)
    (line : string) (rest : list string)
    (define template prev : string) :
  header_lines w config_f = line :: rest ->
  find_define line c_defines = Some (define, template) ->
  last (line :: rest) = Some prev ->
  str_in "#ifndef" prev = true \/ str_in "#warning" prev = true ->
  let e := if guard_checks_pass project_defines define prev then IndexError
           else if str_in "#ifndef" prev
                then match match_ifndef prev with
                     | None => AttributeError
                     | Some _ => AssertionError
                     end
                else AssertionError in
  getitem (line :: rest) (Z.of_nat 0 - 1) = Ok prev
  /\ patch_header c_defines project_defines git_repo_hash config_f unused w
     = (Raise e, w)
  /\ inject_defines c_defines project_defines git_repo_hash
       (config_f :: others) w
     = (Raise e, w).
Proof.
  intros Hl Hf Hlast Hprev e.
  assert (getitem (line :: rest) (Z.of_nat 0 - 1) = Ok prev) as Hget.
  { by apply getitem_minus_one. }
  split; [done|].
  destruct (alignment_of_ok define line) as [a Ha].
  { by apply find_define_Some in Hf as [_ ?]. }
  assert (patch_prev_line project_defines (line :: rest) 0 define []
          = Raise e) as He.
  { unfold patch_prev_line, rbind, e, guard_checks_pass. rewrite Hget.
    destruct (str_in "#ifndef" prev) eqn:E1.
    - destruct (match_ifndef prev) as [g|] eqn:Em; [|done].
      destruct (decide (g = define)) as [->|Hne].
      + rewrite bool_decide_eq_true_2 by done.
        by destruct (existsb _ project_defines).
      + by rewrite bool_decide_eq_false_2 by congruence.
    - destruct Hprev as [?|E2]; [done|]. rewrite E2.
      by destruct (re_match warning_regex prev). }
  assert (forall unused',
            patch_header c_defines project_defines git_repo_hash config_f
              unused' w = (Raise e, w)) as Hrun.
  { intros unused'. unfold header_lines in Hl.
    unfold patch_header, bind, read_text.
    destruct (files w !! config_f) as [text|]; [|done]. rewrite Hl.
    cbn [scan_lines]. unfold bind, scan_line. rewrite Hf.
    unfold patch_line, bind, lift. cbn [new_config_h_lines].
    by rewrite Ha, He. }
  split; [apply Hrun|].
  unfold inject_defines. cbn [patch_headers]. unfold bind. by rewrite Hrun.
Qed.

Lemma first_line_define_wraps_witness :
  let text := str_join newline ["#define FOO 1"; "#ifndef FOO"] in
  let w := World {[ "config/foo.h" := text ]} [] in
  getitem ("#define FOO 1" :: ["#ifndef FOO"]) (Z.of_nat 0 - 1)
  = Ok "#ifndef FOO"
  /\ patch_header [("FOO", "2")] [] "0123abcd" "config/foo.h" {[ "FOO" ]} w
     = (Raise IndexError, w)
  /\ inject_defines [("FOO", "2")] [] "0123abcd" ("config/foo.h" :: []) w
     = (Raise IndexError, w).
Proof.
  intros text w.
  apply (first_line_define_wraps [("FOO", "2")] [] "0123abcd" "config/foo.h"
           [] {[ "FOO" ]} w "#define FOO 1" ["#ifndef FOO"] "FOO" "2"
           "#ifndef FOO").
  - vm_compute. reflexivity.
  - vm_compute. reflexivity.
  - vm_compute. reflexivity.
  - left. vm_compute. reflexivity.
Defined.

(** C8 as stated fails: the last line has [#ifndef] but guards another
    name, and the run stops with an assertion error, before any rewrite is
    attempted. *)
Lemma first_line_define_wraps_counterexample :
  let text := str_join newline ["#define FOO 1"; "#ifndef BAR"] in
  let w := World {[ "config/foo.h" := text ]} [] in
  let run := inject_defines [("FOO", "2")] [] "0123abcd" ["config/foo.h"] w in
  consumed_by [("FOO", "2")] "#define FOO 1" = Some "FOO"
  /\ getitem (split_chr chr_nl text) (Z.of_nat 0 - 1) = Ok "#ifndef BAR"
  /\ str_in "#ifndef" "#ifndef BAR" = true
  /\ run.1 = Raise AssertionError
  /\ run.1 ≠ Raise IndexError.
Proof.
  intros text w run. split_and!; try (vm_compute; reflexivity).
  vm_compute. discriminate.
Qed.

(** * The trailing space of the pattern *)

Lemma str_forall_impl (f g : ascii -> bool) s :
  (forall a, f a = true -> g a = true) ->
  str_forall f s = true -> str_forall g s = true.
Proof.
  intros Hfg. induction s as [|c s IH]; simpl; [done|].
  intros [Hc Hs]%andb_true_iff. by rewrite (Hfg _ Hc), IH.
Qed.

Lemma is_ident_char_not_hash c : is_ident_char c = true -> not_hash c = true.
Proof. destruct c as [[] [] [] [] [] [] [] []]; vm_compute; congruence. Qed.

Lemma is_ident_char_not_space c :
  is_ident_char c = true -> Ascii.eqb " " c = false.
Proof. destruct c as [[] [] [] [] [] [] [] []]; vm_compute; congruence. Qed.

Lemma find_define_without line c_defines N :
  str_in (define_pattern N) line = false ->
  find_define line c_defines
  = find_define line (filter (fun d => d.1 ≠ N) c_defines).
Proof.
  intros HN. induction c_defines as [|[d t] rest IH]; [done|].
  rewrite filter_cons. simpl.
  destruct (decide (d ≠ N)) as [Hd|Hd]; simpl.
  - by rewrite IH.
  - apply dec_stable in Hd as ->. by rewrite HN.
Qed.

(** A line that declares an identifier of which [N] is a proper prefix
    does not have the pattern of [N]. *)
Lemma longer_identifier_no_pattern (pre N X rest : string) (c : ascii) :
  str_forall is_ident_char (N +:+ String c X) = true ->
  str_forall not_hash (pre +:+ rest) = true ->
  str_in (define_pattern N)
         (pre +:+ "#define " +:+ N +:+ String c X +:+ rest) = false.
Proof.
  rewrite !str_forall_app. simpl str_forall.
  intros [HN [Hc HX]%andb_true_iff]%andb_true_iff
         [Hpre Hrest]%andb_true_iff.
  unfold define_pattern.
  change ("#define " +:+ N +:+ " ")
    with (String chr_hash ("define " +:+ N +:+ " ")).
  rewrite str_in_after_prefix by exact Hpre.
  change ("#define " +:+ N +:+ String c X +:+ rest)
    with (String chr_hash ("define " +:+ N +:+ String c X +:+ rest)).
  cbn [str_in]. apply orb_false_iff. split.
  - change (String chr_hash ("define " +:+ N +:+ " "))
      with ("#define " +:+ N +:+ " ").
    change (String chr_hash ("define " +:+ N +:+ String c X +:+ rest))
      with ("#define " +:+ N +:+ String c X +:+ rest).
    rewrite !startswith_app_same. rewrite app_cons. cbn [startswith].
    by rewrite (is_ident_char_not_space c Hc).
  - apply str_in_absent_head. fold not_hash.
    rewrite !str_forall_app. simpl str_forall.
    rewrite (str_forall_impl _ _ _ is_ident_char_not_hash HN).
    rewrite (str_forall_impl _ _ _ is_ident_char_not_hash HX).
    rewrite (is_ident_char_not_hash c Hc). rewrite Hrest. reflexivity.
Qed.



(** C6 as stated fails: the line [#define BAZX 1 #define BAZ 9] declares
    the longer identifier [BAZX], and yet has the pattern of [BAZ] further
    on: [BAZ] consumes it and the line is rewritten. *)
Lemma longer_identifier_not_consumed_counterexample :
  let line := "#define BAZX 1 #define BAZ 9" in
  line = EmptyString +:+ "#define " +:+ "BAZ" +:+ String "X" EmptyString
         +:+ " 1 #define BAZ 9"
  /\ str_forall is_ident_char ("BAZ" +:+ String "X" EmptyString) = true
  /\ str_in "#define BAZ " line = true
  /\ consumed_by [("BAZ", "3")] line = Some "BAZ"
  /\ scan_line [("BAZ", "3")] [] "0123abcd" ["#pragma once"; line]
       (Scan ["#pragma once"] ∅ {[ "BAZ" ]}) 1 line (World ∅ [])
     = (Ok (Scan ["#pragma once"; "#define BAZ3"] {[ "BAZ" := "3" ]} ∅),
        World ∅ []).
Proof.
  intros line. split_and!; vm_compute; reflexivity.
Qed.

(** * The CMake rewrite *)

Section ShellReplace.

(** The replacement of line 393. *)
Local Abbreviation R := (replace_from ">:" ">:SHELL:").

Lemma R_skip k c s : R (S k) (String c s) = R k s.
Proof. reflexivity. Qed.

Lemma R_hit s :
  R 0 (String ">" (String ":" s)) = ">:SHELL:" +:+ R 1 (String ":" s).
Proof. reflexivity. Qed.

Lemma R_miss c s :
  startswith ">:" (String c s) = false -> R 0 (String c s) = String c (R 0 s).
Proof. intros H. cbn [replace_from]. by rewrite H. Qed.

Lemma startswith_gt_colon c s :
  startswith ">:" (String c s) = true ->
  c = ">"%char /\ exists s', s = String ":" s'.
Proof.
  cbn [startswith]. intros [Hc Hs]%andb_true_iff.
  apply Ascii.eqb_eq in Hc as <-. split; [done|].
  destruct s as [|b s']; [done|]. cbn [startswith] in Hs.
  apply andb_true_iff in Hs as [Hb _]. apply Ascii.eqb_eq in Hb as <-. eauto.
Qed.

Lemma isspace_not_gt c : isspace c = true -> Ascii.eqb ">" c = false.
Proof. destruct c as [[] [] [] [] [] [] [] []]; vm_compute; congruence. Qed.

Lemma R_nonempty c s : R 0 (String c s) ≠ EmptyString.
Proof.
  destruct (startswith ">:" (String c s)) eqn:E.
  - apply startswith_gt_colon in E as [-> [s' ->]]. by rewrite R_hit.
  - by rewrite R_miss.
Qed.

Lemma lstrip_R s : lstrip (R 0 s) = R 0 (lstrip s).
Proof.
  induction s as [|c s IH]; [done|].
  destruct (startswith ">:" (String c s)) eqn:E.
  - apply startswith_gt_colon in E as [-> [s' ->]]. by rewrite R_hit.
  - rewrite R_miss by done. cbn [lstrip].
    destruct (isspace c); [done|]. by rewrite R_miss.
Qed.

Lemma rstrip_cons_nonspace c s :
  isspace c = false -> rstrip (String c s) = String c (rstrip s).
Proof. intros H. cbn [rstrip]. rewrite H. by destruct (rstrip s). Qed.

Lemma rstrip_cons_nonempty c s :
  rstrip s ≠ EmptyString -> rstrip (String c s) = String c (rstrip s).
Proof. intros H. cbn [rstrip]. by destruct (rstrip s). Qed.

Lemma rstrip_head a r s :
  rstrip s = String a r -> exists s', s = String a s'.
Proof.
  destruct s as [|c s]; [done|]. cbn [rstrip].
  destruct (rstrip s).
  - destruct (isspace c); [done|]. intros [= <- _]. eauto.
  - intros [= <- _]. eauto.
Qed.

Lemma rstrip_R k s : rstrip (R k s) = R k (rstrip s).
Proof.
  revert k. induction s as [|c s IH]; intros k; [by destruct k|].
  destruct k as [|k].
  - destruct (startswith ">:" (String c s)) eqn:E.
    + apply startswith_gt_colon in E as [-> [s' ->]]. rewrite R_hit.
      assert (rstrip (String ":" s') = String ":" (rstrip s')) as Hc
        by (by apply rstrip_cons_nonspace).
      rewrite (rstrip_cons_nonempty ">") by (by rewrite Hc).
      rewrite Hc, R_hit, <- Hc, <- IH.
      change (">:SHELL:" +:+ ?t)
        with (String ">" (String ":" (String "S" (String "H" (String "E"
               (String "L" (String "L" (String ":" t)))))))).
      by rewrite !rstrip_cons_nonspace.
    + rewrite R_miss by done. cbn [rstrip]. rewrite IH.
      destruct (rstrip s) as [|a r] eqn:Er.
      * cbn [replace_from]. destruct (isspace c); [done|].
        rewrite R_miss; [done|]. cbn [startswith]. apply andb_false_r.
      * destruct (rstrip_head _ _ _ Er) as [s' ->].
        assert (startswith ">:" (String c (String a r)) = false) as E'.
        { cbn [startswith] in E |- *. by destruct r. }
        rewrite (R_miss c) by done.
        pose proof (R_nonempty a r) as Hne. by destruct (R 0 (String a r)).
  - rewrite R_skip, IH. cbn [rstrip].
    destruct (rstrip s) as [|a r]; [|done].
    by destruct (isspace c), k.
Qed.

Lemma strip_replace_shell line :
  strip (str_replace ">:" ">:SHELL:" line)
  = str_replace ">:" ">:SHELL:" (strip line).
Proof. unfold strip, str_replace. by rewrite lstrip_R, rstrip_R. Qed.

End ShellReplace.

Lemma fix_line_shell line :
  str_in ">:SHELL:" line = false ->
  str_in ":-imacros " line = true \/ str_in ":-x " line = true ->
  fix_line line
  = "    " +:+ dquote +:+ strip (str_replace ">:" ">:SHELL:" line) +:+ dquote.
Proof.
  intros H1 H2. unfold fix_line, needs_shell. rewrite H1.
  by destruct H2 as [-> | ->]; rewrite ?orb_true_r.
Qed.

Lemma fix_line_other line :
  str_in ">:SHELL:" line = true
  \/ (str_in ":-imacros " line = false /\ str_in ":-x " line = false) ->
  fix_line line = line.
Proof.
  unfold fix_line, needs_shell. by intros [-> | [-> ->]]; rewrite ?andb_false_r.
Qed.

Lemma replace_absent a :
  str_in ">:" a = false -> str_replace ">:" ">:SHELL:" a = a.
Proof.
  unfold str_replace. induction a as [|c a IH]; [done|].
  cbn [str_in]. intros [E H]%orb_false_iff.
  cbn [replace_from]. rewrite E. by rewrite (IH H).
Qed.

Lemma replace_first a b :
  str_in ">:" a = false ->
  str_replace ">:" ">:SHELL:" (a +:+ ">:" +:+ b)
  = a +:+ ">:SHELL:" +:+ str_replace ">:" ">:SHELL:" b.
Proof.
  unfold str_replace. induction a as [|c a IH].
  - intros _. rewrite !app_empty_l. reflexivity.
  - cbn [str_in]. intros [E H]%orb_false_iff. rewrite !(app_cons c a).
    assert (startswith ">:" (String c (a +:+ ">:" +:+ b)) = false) as E'.
    { cbn [startswith] in E |- *. destruct (Ascii.eqb ">" c); [|done].
      cbn [andb] in E |- *. destruct a as [|x a]; [done|].
      rewrite app_cons. cbn [startswith] in E |- *.
      by destruct (Ascii.eqb ":" x). }
    cbn [replace_from]. rewrite E'. by rewrite (IH H).
Qed.

Lemma rstrip_all_space ws : str_forall isspace ws = true -> rstrip ws = EmptyString.
Proof.
  induction ws as [|c ws IH]; [done|]. cbn [str_forall rstrip].
  intros [Hc Hws]%andb_true_iff. by rewrite (IH Hws), Hc.
Qed.

Lemma rstrip_app_space s ws :
  str_forall isspace ws = true -> rstrip (s +:+ ws) = rstrip s.
Proof.
  intros Hws. induction s as [|c s IH].
  - rewrite app_empty_l. by apply rstrip_all_space.
  - rewrite app_cons. cbn [rstrip]. by rewrite IH.
Qed.

Lemma rstrip_snoc_nonspace s c :
  isspace c = false ->
  rstrip (s +:+ String c EmptyString) = s +:+ String c EmptyString.
Proof.
  intros Hc. induction s as [|a s IH].
  - rewrite app_empty_l. cbn [rstrip]. by rewrite Hc.
  - rewrite app_cons. cbn [rstrip]. rewrite IH. by destruct s.
Qed.

Lemma lstrip_app_space ws s :
  str_forall isspace ws = true -> lstrip (ws +:+ s) = lstrip s.
Proof.
  induction ws as [|a ws IH]; [done|]. cbn [str_forall].
  intros [Ha Hs]%andb_true_iff. rewrite app_cons. cbn [lstrip].
  rewrite Ha. by apply IH.
Qed.

Lemma strip_core ws1 core ws2 c1 m1 m2 c2 :
  str_forall isspace ws1 = true ->
  str_forall isspace ws2 = true ->
  core = String c1 m1 -> isspace c1 = false ->
  core = m2 +:+ String c2 EmptyString -> isspace c2 = false ->
  strip (ws1 +:+ core +:+ ws2) = core.
Proof.
  intros H1 H2 Hc1 Hs1 Hc2 Hs2. unfold strip.
  rewrite lstrip_app_space by done.
  assert (lstrip (core +:+ ws2) = core +:+ ws2) as ->.
  { rewrite Hc1, app_cons. cbn [lstrip]. by rewrite Hs1. }
  rewrite rstrip_app_space by done. rewrite Hc2.
  by apply rstrip_snoc_nonspace.
Qed.



(** * Further properties *)

(** ** Overrides *)

Lemma startswith_split p s :
  startswith p s = true -> s = p +:+ str_drop (str_len p) s.
Proof.
  revert s. induction p as [|a p IH]; intros s; [done|].
  destruct s as [|b s]; cbn [startswith]; [done|].
  intros [Hab Hp]%andb_true_iff. apply Ascii.eqb_eq in Hab as <-.
  rewrite app_cons. cbn [str_len str_drop]. f_equal. by apply IH.
Qed.

Lemma str_find_split p s i :
  str_find p s = Some i ->
  s = str_take i s +:+ p +:+ str_drop (i + str_len p) s.
Proof.
  revert i. induction s as [|c s IH]; intros i; cbn [str_find].
  - destruct (startswith p EmptyString) eqn:E; [|done].
    intros [= <-]. by apply startswith_split.
  - destruct (startswith p (String c s)) eqn:E.
    + intros [= <-]. by apply startswith_split.
    + destruct (str_find p s) as [j|]; [|done]. intros [= <-].
      cbn [str_take str_drop Nat.add]. rewrite app_cons. f_equal. by apply IH.
Qed.

Lemma str_find_chr_before c s i :
  str_find (String c EmptyString) s = Some i ->
  str_in (String c EmptyString) (str_take i s) = false.
Proof.
  revert i. induction s as [|a s IH]; intros i; cbn [str_find startswith].
  - done.
  - rewrite andb_true_r. destruct (Ascii.eqb c a) eqn:E.
    + by intros [= <-].
    + destruct (str_find _ s) as [j|]; [|done]. intros [= <-].
      cbn [str_take str_in startswith]. rewrite E. by apply IH.
Qed.

Lemma str_find_chr_first c key value :
  str_in (String c EmptyString) key = false ->
  str_find (String c EmptyString) (key +:+ String c value)
  = Some (str_len key).
Proof.
  induction key as [|a key IH]; cbn [str_in startswith].
  - intros _. rewrite app_empty_l. cbn [str_find startswith].
    by rewrite Ascii.eqb_refl.
  - rewrite andb_true_r. intros [E H]%orb_false_iff. rewrite app_cons.
    cbn [str_find startswith]. rewrite E. cbn [andb].
    by rewrite (IH H).
Qed.

Lemma str_take_app s t : str_take (str_len s) (s +:+ t) = s.
Proof.
  induction s as [|c s IH]; [by destruct t|].
  rewrite app_cons. cbn [str_len str_take]. by rewrite IH.
Qed.

Lemma str_drop_app s t : str_drop (str_len s) (s +:+ t) = t.
Proof. induction s as [|c s IH]; [done|]. by rewrite app_cons. Qed.

Lemma str_drop_add s t n :
  str_drop (str_len s + n) (s +:+ t) = str_drop n t.
Proof. induction s as [|c s IH]; [done|]. by rewrite app_cons. Qed.

(** X1. [parse_override] rejects exactly the arguments without [=]; it
    splits at the first [=], so the key it returns has no [=] and key, [=]
    and the text given to [json.loads] make up the argument again; the
    unpacking of line 77 never fails. *)
Theorem parse_override_spec {json : Type}
    (json_loads : string -> option json) (override : string) :
  (parse_override json_loads override = inl NotKeyJson
   <-> str_in "=" override = false)
  /\ parse_override json_loads override ≠ inl UnpackError
  /\ (forall key v,
        parse_override json_loads override = inr (key, v) ->
        str_in "=" key = false
        /\ exists value, override = key +:+ "=" +:+ value
                         /\ json_loads value = Some v)
  /\ (forall key value,
        str_in "=" key = false ->
        parse_override json_loads (key +:+ "=" +:+ value)
        = match json_loads value with
          | Some v => inr (key, v)
          | None => inl InvalidJson
          end).
Proof.
  split_and!.
  - unfold parse_override, split_once.
    destruct (str_in "=" override) eqn:E; cbn [negb]; [|done].
    split; [|done]. apply str_in_find in E as [i ->].
    by destruct (json_loads _).
  - unfold parse_override, split_once.
    destruct (str_in "=" override) eqn:E; cbn [negb]; [|done].
    apply str_in_find in E as [i ->]. by destruct (json_loads _).
  - intros key v. unfold parse_override, split_once.
    destruct (str_in "=" override) eqn:E; cbn [negb]; [|done].
    apply str_in_find in E as [i Hi]. rewrite Hi.
    destruct (json_loads _) as [v'|] eqn:Ej; [|done].
    intros [= <- <-]. split; [by apply str_find_chr_before|].
    eexists. split; [|exact Ej]. by apply str_find_split in Hi.
  - intros key value Hk. unfold parse_override, split_once.
    assert (str_in "=" (key +:+ "=" +:+ value) = true) as ->.
    { apply str_in_skip, startswith_str_in. apply (startswith_self "="). }
    cbn [negb].
    change (key +:+ "=" +:+ value) with (key +:+ String "=" value).
    rewrite str_find_chr_first by done.
    rewrite str_take_app, str_drop_add. cbn [str_len str_drop].
    by destruct (json_loads value).
Qed.

(** X2. After the overrides are applied, a key holds the value of the last
    override given for it, and keeps the manifest's value (or stays absent)
    when no override names it. *)
Theorem apply_overrides_lookup {V : Type}
    (manifest : gmap string V) (overrides : list (string * V))
    (key : string) :
  apply_overrides manifest overrides !! key
  = match last_override key overrides with
    | Some v => Some v
    | None => manifest !! key
    end.
Proof.
  unfold apply_overrides. revert manifest.
  induction overrides as [|[k v] rest IH]; intros manifest; [done|].
  cbn [foldl last_override]. rewrite IH.
  destruct (last_override key rest); [done|]. cbn [fst snd].
  destruct (decide (k = key)) as [->|Hne].
  - by rewrite lookup_insert_eq.
  - by rewrite lookup_insert_ne.
Qed.

(** ** More on component resolution *)

Lemma foldl_remove_account rs st :
  let st' := foldl remove_component st rs in
  length st'.1 + length rs + length st.2 = length st.1 + length st'.2
  /\ exists warned, st'.2 = st.2 ++ warned /\ warned `sublist_of` rs.
Proof.
  revert st. induction rs as [|r rs IH]; intros st; cbn [foldl].
  - cbv zeta. split; [simpl; lia|]. exists []. by rewrite app_nil_r.
  - cbv zeta. destruct (IH (remove_component st r)) as [Hlen (wd & Hw & Hs)].
    rewrite Hw in Hlen |- *. unfold remove_component in *.
    destruct (list_remove r st.1) as [cs|] eqn:E; cbn [fst snd] in *.
    + apply list_remove_length in E. split; [simpl; lia|].
      exists wd. split; [done|]. by apply sublist_cons.
    + split.
      * rewrite !length_app in *. simpl in *. lia.
      * exists (r :: wd). split; [by rewrite <- app_assoc|].
        by apply sublist_skip.
Qed.

(** X3. The resolved list is the installed list (surviving base
    components, device, add-list) with some entries taken out, in the
    same order; the warnings are remove-list entries, in order; and every
    remove-list entry either took out one component or was warned about. *)
Theorem resolve_components_account
    (base add_components remove_components : list component)
    (device : string) :
  let installed :=
    strip_chip_specific base ++ [device_component device] ++ add_components in
  let r := resolve_components base device add_components remove_components in
  r.1 `sublist_of` installed
  /\ r.2 `sublist_of` remove_components
  /\ length r.1 + length remove_components = length installed + length r.2.
Proof.
  intros installed r.
  assert (r = foldl remove_component (installed, []) remove_components) as ->.
  { unfold r, resolve_components, installed. by rewrite <- app_assoc. }
  destruct (foldl_remove_account remove_components (installed, []))
    as [Hlen (wd & Hw & Hs)]. cbn [fst snd] in *.
  split_and!.
  - apply (foldl_remove_sublist remove_components (installed, [])).
  - by rewrite Hw.
  - simpl in Hlen. lia.
Qed.

(** X4. Resolution takes out only what the remove-list names: an installed
    component that is equal to no remove-list entry is in the result.  So
    the device entry and the add-list entries stay even when their
    identifier has the chip or board shape. *)
Theorem resolve_components_keeps
    (base add_components remove_components : list component)
    (device : string) (c : component) :
  c ∈ strip_chip_specific base ++ [device_component device] ++ add_components ->
  c ∉ remove_components ->
  c ∈ (resolve_components base device add_components remove_components).1.
Proof.
  intros Hin Hnot. unfold resolve_components. rewrite <- app_assoc.
  by apply foldl_remove_keeps.
Qed.

Lemma resolve_components_keeps_witness :
  device_component "efr32fg14p231f256gm32"
  ∈ (resolve_components
       [Component "mgm210pb32jia" ∅; Component "led_driver" ∅]
       "efr32fg14p231f256gm32" [Component "brd4001a" ∅]
       [Component "led_driver" ∅]).1.
Proof.
  apply resolve_components_keeps.
  - apply (bool_decide_unpack _). vm_compute. exact I.
  - apply (bool_decide_unpack _). vm_compute. exact I.
Defined.

(** ** More on the merge *)

Lemma update_first_extras n v (cfg : list config_entry) :
  extra <$> update_first n v cfg = extra <$> cfg.
Proof.
  induction cfg as [|c cfg IH]; csimpl; [done|].
  destruct (decide (name c = n)); csimpl; [done|]. by rewrite IH.
Qed.

Lemma update_first_other n v (cfg : list config_entry) i c :
  cfg !! i = Some c -> name c ≠ n -> update_first n v cfg !! i = Some c.
Proof.
  revert i. induction cfg as [|y cfg IH]; intros i; [done|].
  cbn [update_first]. destruct (decide (name y = n)) as [Hy|Hy].
  - destruct i as [|i]; simpl; [|done]. intros [= ->] Hc. congruence.
  - destruct i as [|i]; simpl; [done|]. apply IH.
Qed.

(** The result of a merge: the destination with values updated in place,
    followed by one new entry for each source name that was not there. *)
Lemma extend_config_decompose (m : list (string * string))
    (cfg : list config_entry) :
  exists updated appended,
    extend_config m cfg = updated ++ appended
    /\ name <$> updated = name <$> cfg
    /\ extra <$> updated = extra <$> cfg
    /\ (forall i c, cfg !! i = Some c -> name c ∉ m.*1 ->
                    updated !! i = Some c)
    /\ NoDup (name <$> appended)
    /\ (forall n, n ∈ name <$> appended <->
                  n ∈ m.*1 /\ n ∉ name <$> cfg)
    /\ Forall (fun c => extra c = ∅) appended.
Proof.
  unfold extend_config. revert cfg.
  induction m as [|[n v] m IH]; intros cfg.
  - exists cfg, []. rewrite app_nil_r. split_and!; try done.
    + apply NoDup_nil_2.
    + intros n'. split; [by intros H%elem_of_nil|].
      by intros [H%elem_of_nil _].
  - cbn [foldl]. destruct (decide (n ∈ name <$> cfg)) as [Hin|Hin].
    + rewrite merge_entry_present by done.
      destruct (IH (update_first n v cfg))
        as (u & a & -> & Hn & He & Hsame & Hnd & Hmem & Hex).
      rewrite update_first_names in Hn, Hmem.
      rewrite update_first_extras in He.
      exists u, a. split_and!; try done.
      * intros i c Hi Hc. csimpl in Hc.
        apply not_elem_of_cons in Hc as [Hne Hc].
        apply Hsame; [|done]. by apply update_first_other.
      * intros n'. rewrite Hmem. csimpl. rewrite elem_of_cons.
        split; [intros [? ?]; auto|].
        intros [[->|?] ?]; [done|auto].
    + rewrite merge_entry_absent by done.
      destruct (IH (cfg ++ [ConfigEntry n v ∅]))
        as (u & a & -> & Hn & He & Hsame & Hnd & Hmem & Hex).
      rewrite fmap_app in Hn. rewrite fmap_app in He.
      rewrite (fmap_app name) in Hmem. csimpl in *.
      induction u as [|e u1 _] using rev_ind.
      { by destruct (name <$> cfg). }
      rewrite fmap_app in Hn. rewrite fmap_app in He. csimpl in *.
      apply app_inj_tail in Hn as [Hn Hen].
      apply app_inj_tail in He as [He Hee].
      exists u1, (e :: a). split_and!.
      * by rewrite <- app_assoc.
      * done.
      * done.
      * intros i c Hi Hc. apply not_elem_of_cons in Hc as [Hne Hc].
        assert ((u1 ++ [e]) !! i = Some c) as Hl.
        { apply Hsame; [|done]. by apply lookup_app_l_Some. }
        rewrite lookup_app_l in Hl; [done|].
        apply lookup_lt_Some in Hi.
        rewrite <- (length_fmap name u1), Hn, length_fmap. done.
      * csimpl. apply NoDup_cons. split; [|done]. rewrite Hen.
        intros H%Hmem. destruct H as [_ H]. apply H.
        apply elem_of_app. right. apply list_elem_of_here.
      * intros n'. csimpl. rewrite elem_of_cons, Hmem, elem_of_cons,
          elem_of_app, list_elem_of_singleton, Hen.
        destruct (decide (n' = n)) as [->|Hne]; [tauto|]. tauto.
      * apply Forall_cons. split; [done|done].
Qed.

(** X5. After a merge, the first entry called [n] holds the value that the
    source map gives last for [n]; for a name that the source map does not
    have, it holds what it held before (or there is still none). *)
Theorem extend_config_lookup
    (input_config : list (string * string))
    (output_config : list config_entry) (n : string) :
  first_value n (extend_config input_config output_config)
  = match last_binding n input_config with
    | Some v => Some v
    | None => first_value n output_config
    end.
Proof. apply first_value_extend_config. Qed.

(** X6. A merge keeps the destination's entries at their positions, with
    their names and their other keys; an entry whose name is not in the
    source map is not changed at all.  What is appended is one entry, with
    no other key, for each source name that the destination did not have,
    and no name twice. *)
Theorem extend_config_shape
    (input_config : list (string * string))
    (output_config : list config_entry) :
  exists updated appended,
    extend_config input_config output_config = updated ++ appended
    /\ name <$> updated = name <$> output_config
    /\ extra <$> updated = extra <$> output_config
    /\ (forall i c, output_config !! i = Some c -> name c ∉ input_config.*1 ->
                    updated !! i = Some c)
    /\ NoDup (name <$> appended)
    /\ (forall n, n ∈ name <$> appended <->
                  n ∈ input_config.*1 /\ n ∉ name <$> output_config)
    /\ Forall (fun c => extra c = ∅) appended.
Proof. apply extend_config_decompose. Qed.

(** X7. A destination whose names are pairwise distinct stays so under a
    merge. *)
Theorem extend_config_NoDup
    (input_config : list (string * string))
    (output_config : list config_entry) :
  NoDup (name <$> output_config) ->
  NoDup (name <$> extend_config input_config output_config).
Proof.
  intros Hnd.
  destruct (extend_config_decompose input_config output_config)
    as (u & a & -> & Hn & _ & _ & Hnda & Hmem & _).
  rewrite fmap_app, Hn. apply NoDup_app. split_and!; [done| |done].
  intros n Hn1 Hn2. apply Hmem in Hn2 as [_ Hn2]. done.
Qed.

Lemma extend_config_NoDup_witness :
  NoDup (name <$> extend_config [("TX_POWER", "10"); ("NEW", "1")]
                    [ConfigEntry "TX_POWER" "5" ∅;
                     ConfigEntry "RETRIES" "3" ∅]).
Proof.
  apply extend_config_NoDup.
  apply (bool_decide_unpack _). vm_compute. exact I.
Defined.

(** ** The synthesized project *)

(** X8. Synthesis fails, with [KeyError], exactly when the base project has
    no [component], [toolchain_settings] or [configuration] key or the
    manifest has no [device]; the manifest's other keys and the project's
    [define] key may be absent. *)
Theorem synthesize_KeyError (base_project : project) (m : manifest) :
  (synthesize base_project m = Raise KeyError
   <-> p_component base_project = None
       \/ m_device m = None
       \/ p_toolchain_settings base_project = None
       \/ p_configuration base_project = None)
  /\ (forall e, synthesize base_project m = Raise e -> e = KeyError).
Proof.
  unfold synthesize, subscript, rbind.
  destruct (p_component base_project), (m_device m),
    (p_toolchain_settings base_project), (p_configuration base_project);
    (split; [split; [try done; auto|intros [?|[?|[?|?]]]; done]
            |intros e [= <-]; done]).
Qed.

(** X9. When the base project has no [define] key, the manifest's
    [slcp_defines] do not reach the output project: synthesis gives what
    it gives without them, the output project has no define list, and the
    check of line 341 finds no define of any name. *)
Theorem synthesize_defines_lost (base_project : project) (m : manifest)
    (out : project) (warned : list component) (define : string) :
  p_define base_project = None ->
  synthesize base_project m = Ok (out, warned) ->
  synthesize base_project
    (Manifest (m_device m) (m_add_components m) (m_remove_components m)
       (m_toolchain_settings m) (m_configuration m) None)
  = Ok (out, warned)
  /\ p_define out = None
  /\ existsb (fun c => bool_decide (name c = define)) (project_defines_of out)
     = false.
Proof.
  intros Hd. unfold synthesize, subscript, rbind. cbn [m_device
    m_add_components m_remove_components m_toolchain_settings m_configuration
    m_slcp_defines]. rewrite Hd.
  destruct (p_component base_project); [|done].
  destruct (m_device m); [|done].
  destruct (p_toolchain_settings base_project); [|done].
  destruct (p_configuration base_project); [|done].
  intros [= <- <-]. done.
Qed.

Lemma synthesize_defines_lost_witness :
  let base := Project (Some [Component "led_driver" ∅]) (Some [])
                (Some [ConfigEntry "TX_POWER" "5" ∅]) None in
  let m := Manifest (Some "efr32fg14p231f256gm32") None None None None
             (Some [("BUILD_REV", "1")]) in
  exists out warned,
    synthesize base m = Ok (out, warned)
    /\ p_define out = None
    /\ existsb (fun c => bool_decide (name c = "BUILD_REV"))
         (project_defines_of out) = false.
Proof.
  intros base m.
  eexists _, _. split; [vm_compute; reflexivity|].
  refine (proj2 (synthesize_defines_lost base m _ _ "BUILD_REV" _ _)).
  - reflexivity.
  - vm_compute. reflexivity.
Defined.

(** ** More on the injection *)

Lemma py_index_nat n k : k < n -> py_index n (Z.of_nat k) = Some k.
Proof.
  intros H. unfold py_index.
  rewrite (proj2 (Z.ltb_ge _ _)) by lia.
  rewrite (proj2 (Z.leb_le 0 _)) by lia.
  rewrite (proj2 (Z.ltb_lt _ _)) by lia.
  simpl. by rewrite Nat2Z.id.
Qed.

Lemma py_index_out n k : n <= k -> py_index n (Z.of_nat k) = None.
Proof.
  intros H. unfold py_index.
  rewrite (proj2 (Z.ltb_ge _ _)) by lia.
  rewrite (proj2 (Z.ltb_ge (Z.of_nat k) _)) by lia.
  by rewrite andb_false_r.
Qed.

Lemma pred_index k : (Z.of_nat (S k) - 1)%Z = Z.of_nat k.
Proof. lia. Qed.

Lemma getitem_nat {A} (l : list A) k x :
  l !! k = Some x -> getitem l (Z.of_nat k) = Ok x.
Proof.
  intros H. unfold getitem.
  rewrite py_index_nat by (by eapply lookup_lt_Some). by rewrite H.
Qed.

Lemma setitem_last {A} (l : list A) (y x : A) :
  setitem (l ++ [y]) (Z.of_nat (length l)) x = Ok (l ++ [x]).
Proof.
  unfold setitem. rewrite py_index_nat by (rewrite length_app; simpl; lia).
  f_equal. rewrite insert_app_r_alt by done.
  by rewrite Nat.sub_diag.
Qed.

Lemma pop_last {A} (l : list A) (y : A) :
  pop (l ++ [y]) (Z.of_nat (length l)) = Ok l.
Proof.
  unfold pop. rewrite py_index_nat by (rewrite length_app; simpl; lia).
  f_equal. rewrite delete_middle. by rewrite app_nil_r.
Qed.

Lemma setitem_out {A} (l : list A) k (x : A) :
  length l <= k -> setitem l (Z.of_nat k) x = Raise IndexError.
Proof. intros H. unfold setitem. by rewrite py_index_out. Qed.

Lemma pop_out {A} (l : list A) k :
  length l <= k -> pop l (Z.of_nat k) = Raise IndexError.
Proof. intros H. unfold pop. by rewrite py_index_out. Qed.

Section InjectionMore.

Variable c_defines : list (string * string).
Variable project_defines : list config_entry.
Variable git_repo_hash : string.

Local Abbreviation scan_lines'' :=
  (scan_lines c_defines project_defines git_repo_hash).

Lemma scan_lines_copy_all lines index rest st w :
  Forall (fun line => consumed_by c_defines line = None) rest ->
  scan_lines'' lines index rest st w
  = (Ok (Scan (new_config_h_lines st ++ rest)
              (written_config st) (unused_defines st)), w).
Proof.
  intros H. revert index st.
  induction H as [|line rest Hl _ IH]; intros index st; cbn [scan_lines].
  - unfold ret. rewrite app_nil_r. by destruct st.
  - unfold bind. rewrite scan_line_copy.
    + rewrite IH. cbn [new_config_h_lines written_config unused_defines].
      by rewrite <- app_assoc.
    + unfold consumed_by in Hl. by destruct (find_define line c_defines).
Qed.

Lemma scan_lines_app lines index r1 r2 st w st1 w1 :
  scan_lines'' lines index r1 st w = (Ok st1, w1) ->
  scan_lines'' lines index (r1 ++ r2) st w
  = scan_lines'' lines (index + length r1) r2 st1 w1.
Proof.
  revert index st w. induction r1 as [|line r1 IH]; intros index st w.
  - cbn [scan_lines app length]. unfold ret. intros [= <- <-].
    by rewrite Nat.add_0_r.
  - cbn [scan_lines app length]. unfold bind.
    destruct (scan_line _ _ _ _ _ _ _ w) as [[st'|e] w'] eqn:E; [|done].
    intros H. rewrite (IH _ _ _ H). f_equal. lia.
Qed.

Lemma patch_line_prev_raise lines st index line w define template a e :
  alignment_of define line = Ok a ->
  patch_prev_line project_defines lines index define (new_config_h_lines st)
    = Raise e ->
  patch_line project_defines git_repo_hash lines st index line define
    template w = (Raise e, w).
Proof.
  intros Ha He. unfold patch_line, bind, lift. by rewrite Ha, He.
Qed.

(** One consumed line between lines that nothing consumes. *)
Lemma scan_lines_single before line after lines unused w
    define template a new_lines v :
  Forall (fun l => consumed_by c_defines l = None) before ->
  Forall (fun l => consumed_by c_defines l = None) after ->
  find_define line c_defines = Some (define, template) ->
  alignment_of define line = Ok a ->
  patch_prev_line project_defines lines (length before) define before
    = Ok new_lines ->
  format git_repo_hash template = Ok v ->
  define ∈ unused ->
  scan_lines'' lines 0 (before ++ [line] ++ after) (Scan [] ∅ unused) w
  = (Ok (Scan (new_lines ++ ["#define " +:+ define +:+ a +:+ v] ++ after)
              {[ define := v ]} (unused ∖ {[ define ]})), w).
Proof.
  intros Hb Ha Hf Hal Hp Hv Hu.
  rewrite scan_lines_app
    with (st1 := Scan before ∅ unused) (w1 := w)
    by (by rewrite scan_lines_copy_all).
  cbn [Nat.add app scan_lines]. unfold bind.
  rewrite scan_line_patch with (define := define) (template := template)
    by done.
  rewrite patch_line_ok with (alignment := a) (new_lines := new_lines) (v := v)
    by done.
  rewrite scan_lines_copy_all by done.
  cbn [new_config_h_lines written_config unused_defines].
  by rewrite insert_empty, <- app_assoc.
Qed.

End InjectionMore.

Lemma patch_prev_line_guard project_defines lines before g define :
  lines !! length before = Some g ->
  str_in "#ifndef" g = true ->
  match_ifndef g = Some define ->
  Forall (fun c => name c ≠ define) project_defines ->
  patch_prev_line project_defines lines (S (length before)) define
    (before ++ [g])
  = Ok (before ++ ["#if 1"]).
Proof.
  intros Hg H1 H2 H3. unfold patch_prev_line, rbind.
  rewrite pred_index, (getitem_nat _ _ _ Hg), H1, H2.
  rewrite decide_True by done. rewrite no_project_define by done.
  apply setitem_last.
Qed.

Lemma patch_prev_line_warning project_defines lines before g define :
  lines !! length before = Some g ->
  str_in "#ifndef" g = false ->
  str_in "#warning" g = true ->
  re_match warning_regex g = true ->
  patch_prev_line project_defines lines (S (length before)) define
    (before ++ [g])
  = Ok before.
Proof.
  intros Hg H1 H2 H3. unfold patch_prev_line, rbind.
  rewrite pred_index, (getitem_nat _ _ _ Hg), H1, H2, H3.
  apply pop_last.
Qed.

(** X10. A header with one consumed line, that line coming right after the
    guard [#ifndef N] of its own name: the scan turns the guard into
    [#if 1], writes [#define N], the old alignment and the resolved value
    in place of the line, copies every other line, and takes [N] out of
    the unused names. *)
Theorem guard_rewritten
    (c_defines : list (string * string)) (project_defines : list config_entry)
    (git_repo_hash : string) (pre post : list string)
    (g line N template a v : string) (unused : gset string) (w : world) :
  let lines := pre ++ [g; line] ++ post in
  Forall (fun l => consumed_by c_defines l = None) (pre ++ [g] ++ post) ->
  find_define line c_defines = Some (N, template) ->
  str_in "#ifndef" g = true ->
  match_ifndef g = Some N ->
  Forall (fun c => name c ≠ N) project_defines ->
  alignment_of N line = Ok a ->
  format git_repo_hash template = Ok v ->
  N ∈ unused ->
  scan_lines c_defines project_defines git_repo_hash lines 0 lines
    (Scan [] ∅ unused) w
  = (Ok (Scan (pre ++ ["#if 1"; "#define " +:+ N +:+ a +:+ v] ++ post)
              {[ N := v ]} (unused ∖ {[ N ]})), w).
Proof.
  intros lines Hun Hf Hg1 Hg2 Hpd Ha Hv Hu.
  apply Forall_app in Hun as [Hpre [Hg Hpost]%Forall_app].
  assert (lines = (pre ++ [g]) ++ [line] ++ post) as Hl.
  { unfold lines. by rewrite <- app_assoc. }
  rewrite Hl at 2.
  rewrite scan_lines_single
    with (define := N) (template := template) (a := a) (v := v)
         (new_lines := pre ++ ["#if 1"]); try done.
  - by rewrite <- app_assoc.
  - by apply Forall_app.
  - rewrite length_app. cbn [length]. rewrite Nat.add_1_r.
    apply patch_prev_line_guard; try done.
    unfold lines. cbn [app]. by apply list_lookup_middle.
Qed.

Lemma guard_rewritten_witness :
  scan_lines [("FOO", "{git_repo_hash}")] [] "0123abcd"
    (["// config"] ++ ["#ifndef FOO"; "#define FOO   1"] ++ ["#endif"]) 0
    (["// config"] ++ ["#ifndef FOO"; "#define FOO   1"] ++ ["#endif"])
    (Scan [] ∅ {[ "FOO" ]}) (World ∅ [])
  = (Ok (Scan (["// config"]
               ++ ["#if 1"; "#define " +:+ "FOO" +:+ "   " +:+ "0123abcd"]
               ++ ["#endif"])
              {[ "FOO" := "0123abcd" ]} ({[ "FOO" ]} ∖ {[ "FOO" ]})),
     World ∅ []).
Proof.
  apply (guard_rewritten [("FOO", "{git_repo_hash}")] [] "0123abcd"
           ["// config"] ["#endif"] "#ifndef FOO" "#define FOO   1" "FOO"
           "{git_repo_hash}" "   " "0123abcd" {[ "FOO" ]} (World ∅ [])).
  - repeat constructor.
  - reflexivity.
  - reflexivity.
  - reflexivity.
  - constructor.
  - reflexivity.
  - reflexivity.
  - apply (bool_decide_unpack _). vm_compute. exact I.
Defined.

(** X11. A header with one consumed line, that line coming right after a
    warning of the shape of line 347: the scan drops the warning line,
    writes the new define in place of the line and copies every other
    line. *)
Theorem warning_removed
    (c_defines : list (string * string)) (project_defines : list config_entry)
    (git_repo_hash : string) (pre post : list string)
    (g line N template a v : string) (unused : gset string) (w : world) :
  let lines := pre ++ [g; line] ++ post in
  Forall (fun l => consumed_by c_defines l = None) (pre ++ [g] ++ post) ->
  find_define line c_defines = Some (N, template) ->
  str_in "#ifndef" g = false ->
  str_in "#warning" g = true ->
  re_match warning_regex g = true ->
  alignment_of N line = Ok a ->
  format git_repo_hash template = Ok v ->
  N ∈ unused ->
  scan_lines c_defines project_defines git_repo_hash lines 0 lines
    (Scan [] ∅ unused) w
  = (Ok (Scan (pre ++ ["#define " +:+ N +:+ a +:+ v] ++ post)
              {[ N := v ]} (unused ∖ {[ N ]})), w).
Proof.
  intros lines Hun Hf Hg1 Hg2 Hg3 Ha Hv Hu.
  apply Forall_app in Hun as [Hpre [Hg Hpost]%Forall_app].
  assert (lines = (pre ++ [g]) ++ [line] ++ post) as Hl.
  { unfold lines. by rewrite <- app_assoc. }
  rewrite Hl at 2.
  rewrite scan_lines_single
    with (define := N) (template := template) (a := a) (v := v)
         (new_lines := pre); try done.
  - by apply Forall_app.
  - rewrite length_app. cbn [length]. rewrite Nat.add_1_r.
    apply patch_prev_line_warning; try done.
    unfold lines. cbn [app]. by apply list_lookup_middle.
Qed.

Lemma warning_removed_witness :
  let g := "#warning " +:+ dquote +:+ "FOO not configured" +:+ dquote in
  scan_lines [("FOO", "2")] [] "0123abcd"
    (["// config"] ++ [g; "#define FOO 1"] ++ ["// end"]) 0
    (["// config"] ++ [g; "#define FOO 1"] ++ ["// end"])
    (Scan [] ∅ {[ "FOO" ]}) (World ∅ [])
  = (Ok (Scan (["// config"] ++ ["#define " +:+ "FOO" +:+ " " +:+ "2"]
               ++ ["// end"])
              {[ "FOO" := "2" ]} ({[ "FOO" ]} ∖ {[ "FOO" ]})),
     World ∅ []).
Proof.
  intros g.
  apply (warning_removed [("FOO", "2")] [] "0123abcd"
           ["// config"] ["// end"] g "#define FOO 1" "FOO"
           "2" " " "2" {[ "FOO" ]} (World ∅ [])).
  - repeat constructor.
  - reflexivity.
  - reflexivity.
  - reflexivity.
  - vm_compute. reflexivity.
  - reflexivity.
  - reflexivity.
  - apply (bool_decide_unpack _). vm_compute. exact I.
Defined.

Lemma patch_prev_line_out project_defines lines k g define new_lines :
  lines !! k = Some g ->
  str_in "#ifndef" g = true \/ str_in "#warning" g = true ->
  guard_checks_pass project_defines define g = true ->
  length new_lines <= k ->
  patch_prev_line project_defines lines (S k) define new_lines
  = Raise IndexError.
Proof.
  intros Hg Hor Hpass Hlen. unfold patch_prev_line, rbind.
  rewrite pred_index, (getitem_nat _ _ _ Hg).
  unfold guard_checks_pass in Hpass.
  destruct (str_in "#ifndef" g) eqn:E1.
  - apply andb_true_iff in Hpass as [Hm He].
    apply bool_decide_eq_true in Hm. rewrite Hm.
    rewrite decide_True by done. apply negb_true_iff in He. rewrite He.
    by apply setitem_out.
  - destruct Hor as [?|E2]; [done|]. rewrite E2, Hpass. by apply pop_out.
Qed.

(** X12. Once a warning line has been dropped, the output lines are one
    fewer than the lines read, and the positions of lines 345 and 348 are
    off by one: a later define of the same header that comes after a guard
    or a warning which passes its checks stops the run with an uncaught
    index error, whatever its name. *)
Theorem guarded_define_after_removed_warning
    (c_defines : list (string * string)) (project_defines : list config_entry)
    (git_repo_hash : string) (pre mid post : list string)
    (g line N template a v : string) (g2 line2 N2 template2 : string)
    (unused : gset string) (w : world) :
  let lines := pre ++ [g; line] ++ mid ++ [g2; line2] ++ post in
  Forall (fun l => consumed_by c_defines l = None)
         (pre ++ [g] ++ mid ++ [g2]) ->
  find_define line c_defines = Some (N, template) ->
  str_in "#ifndef" g = false ->
  str_in "#warning" g = true ->
  re_match warning_regex g = true ->
  alignment_of N line = Ok a ->
  format git_repo_hash template = Ok v ->
  N ∈ unused ->
  find_define line2 c_defines = Some (N2, template2) ->
  str_in "#ifndef" g2 = true \/ str_in "#warning" g2 = true ->
  guard_checks_pass project_defines N2 g2 = true ->
  scan_lines c_defines project_defines git_repo_hash lines 0 lines
    (Scan [] ∅ unused) w
  = (Raise IndexError, w).
Proof.
  intros lines Hun Hf Hg1 Hg2 Hg3 Ha Hv Hu Hf2 Hor Hpass.
  apply Forall_app in Hun as [Hpre [Hg Hmid]%Forall_app].
  assert (lines = ((pre ++ [g]) ++ [line] ++ (mid ++ [g2])) ++ line2 :: post)
    as Hl.
  { unfold lines. by rewrite <- !app_assoc. }
  assert (lines !! length ((pre ++ [g]) ++ [line] ++ mid) = Some g2) as Hk.
  { rewrite Hl. rewrite !app_assoc. rewrite <- (app_assoc _ [g2]).
    cbn [app]. by apply list_lookup_middle. }
  rewrite Hl at 2.
  rewrite scan_lines_app
    with (st1 := Scan (pre ++ ["#define " +:+ N +:+ a +:+ v] ++ mid ++ [g2])
                      {[ N := v ]} (unused ∖ {[ N ]})) (w1 := w).
  - cbn [scan_lines]. unfold bind.
    rewrite scan_line_patch with (define := N2) (template := template2)
      by done.
    destruct (alignment_of_ok N2 line2) as [a2 Ha2].
    { by apply find_define_Some in Hf2 as [_ ?]. }
    rewrite patch_line_prev_raise with (a := a2) (e := IndexError); [done|done|].
    cbn [new_config_h_lines Nat.add].
    replace (length ((pre ++ [g]) ++ [line] ++ mid ++ [g2]))
      with (S (length ((pre ++ [g]) ++ [line] ++ mid)))
      by (rewrite !length_app; simpl; lia).
    apply patch_prev_line_out with (g := g2); try done.
    rewrite !length_app. simpl. lia.
  - apply scan_lines_single with (define := N) (template := template);
      try done.
    + by apply Forall_app.
    + rewrite length_app. cbn [length]. rewrite Nat.add_1_r.
      apply patch_prev_line_warning; try done.
      unfold lines. cbn [app]. by apply list_lookup_middle.
Qed.

Lemma guarded_define_after_removed_warning_witness :
  let g := "#warning " +:+ dquote +:+ "FOO not configured" +:+ dquote in
  let lines := [] ++ [g; "#define FOO 1"] ++ ["// next"]
               ++ ["#ifndef BAR"; "#define BAR 1"] ++ ["#endif"] in
  scan_lines [("FOO", "2"); ("BAR", "3")] [] "0123abcd" lines 0 lines
    (Scan [] ∅ {[ "FOO"; "BAR" ]}) (World ∅ [])
  = (Raise IndexError, World ∅ []).
Proof.
  intros g.
  apply (guarded_define_after_removed_warning
           [("FOO", "2"); ("BAR", "3")] [] "0123abcd" [] ["// next"]
           ["#endif"] g "#define FOO 1" "FOO" "2" " " "2"
           "#ifndef BAR" "#define BAR 1" "BAR" "3"
           {[ "FOO"; "BAR" ]} (World ∅ [])).
  - repeat constructor.
  - reflexivity.
  - reflexivity.
  - reflexivity.
  - vm_compute. reflexivity.
  - reflexivity.
  - reflexivity.
  - apply (bool_decide_unpack _). vm_compute. exact I.
  - reflexivity.
  - left. reflexivity.
  - vm_compute. reflexivity.
Defined.

Section InjectionDom.

Variable c_defines : list (string * string).
Variable project_defines : list config_entry.
Variable git_repo_hash : string.

Lemma patch_header_dom config_f unused w r w' :
  patch_header c_defines project_defines git_repo_hash config_f unused w
  = (r, w') ->
  dom (files w') = dom (files w).
Proof.
  destruct r as [u|e].
  - unfold patch_header, bind, read_text.
    destruct (files w !! config_f) as [text|] eqn:Et; [|done].
    destruct (scan_lines _ _ _ _ 0 _ _ w) as [[st|e] w1] eqn:Es; [|done].
    apply scan_lines_ok in Es as (-> & _).
    destruct (decide (written_config st = ∅)).
    + unfold ret. by intros [= _ <-].
    + unfold print, write_text, ret. simpl. intros [= _ <-]. simpl.
      apply dom_insert_lookup_L. by rewrite Et.
  - intros H. apply patch_header_raise in H as [-> _]. done.
Qed.

Lemma patch_headers_dom headers unused w r w' :
  patch_headers c_defines project_defines git_repo_hash headers unused w
  = (r, w') ->
  dom (files w') = dom (files w).
Proof.
  revert unused w. induction headers as [|h headers IH]; intros unused w.
  - cbn [patch_headers]. unfold ret. by intros [= _ <-].
  - cbn [patch_headers]. unfold bind.
    destruct (patch_header _ _ _ h unused w) as [[u1|e1] w1] eqn:Eh.
    + intros H. apply IH in H as ->. by eapply patch_header_dom.
    + intros [= _ <-]. by eapply patch_header_dom.
Qed.

End InjectionDom.

(** X13. However it ends, the injection neither creates nor deletes a
    file: the paths that hold a text after the run are the paths that held
    one before. *)
Theorem inject_defines_same_paths
    (c_defines : list (string * string)) (project_defines : list config_entry)
    (git_repo_hash : string) (headers : list string) (w w' : world)
    (r : result unit) :
  inject_defines c_defines project_defines git_repo_hash headers w = (r, w') ->
  dom (files w') = dom (files w).
Proof.
  intros Hrun.
  apply inject_defines_inv in Hrun
    as [(u & H & _)|[(u & w1 & H & _ & _ & ->)|(e & H & _)]];
    by apply patch_headers_dom in H.
Qed.

Lemma inject_defines_same_paths_witness :
  let w := World {[ "autogen/a.h" := "#define FOOBAR 1";
                    "config/b.h" := "#define FOO 1" ]} [] in
  let run := inject_defines [("FOO", "2")] [] "0123abcd"
               ["autogen/a.h"; "config/b.h"; "config/missing.h"] w in
  dom (files run.2) = dom (files w).
Proof.
  intros w run.
  apply (inject_defines_same_paths [("FOO", "2")] [] "0123abcd"
           ["autogen/a.h"; "config/b.h"; "config/missing.h"] w run.2 run.1).
  vm_compute. reflexivity.
Defined.

(** ** Alignment and value *)

Lemma str_find_after_prefix c p pre s :
  str_forall (fun a => negb (Ascii.eqb c a)) pre = true ->
  str_find (String c p) (pre +:+ s)
  = (Nat.add (str_len pre)) <$> str_find (String c p) s.
Proof.
  induction pre as [|a pre IH]; cbn [str_forall].
  - intros _. rewrite app_empty_l. by destruct (str_find _ s).
  - intros [Ha Hs]%andb_true_iff. apply negb_true_iff in Ha.
    rewrite app_cons. cbn [str_find startswith]. rewrite Ha. cbn [andb].
    rewrite (IH Hs). by destruct (str_find _ s).
Qed.

Lemma str_find_self p t : str_find p (p +:+ t) = Some 0.
Proof.
  pose proof (startswith_self p t) as H.
  destruct (p +:+ t); cbn [str_find]; by rewrite H.
Qed.

Lemma lstrip_spaces ws s :
  str_forall isspace ws = true -> lstrip (ws +:+ s) = lstrip s.
Proof.
  induction ws as [|a ws IH]; [done|]. cbn [str_forall].
  intros [Ha Hs]%andb_true_iff. rewrite app_cons. cbn [lstrip].
  rewrite Ha. by apply IH.
Qed.

Lemma getitem_second {A} (x y : A) : getitem [x; y] 1 = Ok y.
Proof. reflexivity. Qed.

Lemma alignment_of_dww pre N rest :
  str_forall not_hash pre = true ->
  alignment_of N (pre +:+ "#define " +:+ N +:+ rest)
  = rbind (str_index (strip rest) rest) (fun i => Ok (str_take i rest)).
Proof.
  intros Hpre. unfold alignment_of, split_once.
  replace (pre +:+ "#define " +:+ N +:+ rest)
    with (pre +:+ ("#define " +:+ N) +:+ rest)
    by (by rewrite (str_app_assoc "#define ")).
  change ("#define " +:+ N) with (String chr_hash ("define " +:+ N)).
  rewrite str_find_after_prefix by exact Hpre.
  rewrite str_find_self. cbn [fmap option_fmap option_map].
  rewrite getitem_second. cbn [rbind].
  rewrite Nat.add_0_r. rewrite str_drop_add.
  by rewrite str_drop_app.
Qed.

(** X14. For a line [<pre>#define N<ws><value>] where [pre] has no [#],
    [ws] is white space and the value starts with another character, the
    alignment is [ws] exactly; the line that replaces it is made of
    [#define N], this alignment and the new value only. *)
Theorem alignment_of_kept (pre N ws value : string) (c : ascii) :
  str_forall not_hash pre = true ->
  str_forall isspace ws = true ->
  isspace c = false ->
  alignment_of N (pre +:+ "#define " +:+ N +:+ ws +:+ String c value)
  = Ok ws.
Proof.
  intros Hpre Hws Hc. rewrite alignment_of_dww by done.
  unfold strip. rewrite lstrip_spaces by done. cbn [lstrip]. rewrite Hc.
  rewrite rstrip_cons_nonspace by done. unfold str_index.
  rewrite str_find_after_prefix.
  - rewrite <- (rstrip_cons_nonspace c value) by done.
    pose proof (startswith_rstrip (String c value)) as Hr.
    assert (str_find (rstrip (String c value)) (String c value) = Some 0)
      as ->.
    { cbn [str_find]. by rewrite Hr. }
    cbn [fmap option_fmap option_map rbind]. rewrite Nat.add_0_r.
    by rewrite str_take_app.
  - eapply str_forall_impl; [|exact Hws]. intros a Ha. apply negb_true_iff.
    apply not_true_iff_false. intros E%Ascii.eqb_eq. congruence.
Qed.

Lemma alignment_of_kept_witness :
  alignment_of "FOO"
    ("  // " +:+ "#define " +:+ "FOO" +:+ "    " +:+ String "1" " // old")
  = Ok "    ".
Proof.
  apply alignment_of_kept; vm_compute; reflexivity.
Defined.

(** X15. When only white space follows the name, the alignment is empty:
    the new value is written right after the name, with nothing between
    them. *)
Theorem alignment_of_empty_value (pre N ws : string) :
  str_forall not_hash pre = true ->
  str_forall isspace ws = true ->
  alignment_of N (pre +:+ "#define " +:+ N +:+ ws) = Ok EmptyString.
Proof.
  intros Hpre Hws. rewrite alignment_of_dww by done.
  unfold strip.
  rewrite <- (app_empty_r ws) at 1. rewrite lstrip_spaces by done.
  cbn [lstrip rstrip]. unfold str_index.
  assert (str_find EmptyString ws = Some 0) as ->.
  { by destruct ws. }
  cbn [rbind]. by destruct ws.
Qed.

Lemma alignment_of_empty_value_witness :
  alignment_of "FOO" (EmptyString +:+ "#define " +:+ "FOO" +:+ "  ")
  = Ok EmptyString.
Proof.
  apply alignment_of_empty_value; vm_compute; reflexivity.
Defined.

Lemma rmap_rmap {A B C} (f : A -> B) (g : B -> C) (r : result A) :
  rmap g (rmap f r) = rmap (fun a => g (f a)) r.
Proof. by destruct r. Qed.

Lemma not_brace_inv c :
  not_brace c = true -> Ascii.eqb c "{" = false /\ Ascii.eqb c "}" = false.
Proof. unfold not_brace. by intros [? ?]%negb_true_iff%orb_false_iff. Qed.

Lemma format_from_text h s rest :
  str_forall not_brace s = true ->
  format_from h FText (s +:+ rest)
  = rmap (String.append s) (format_from h FText rest).
Proof.
  induction s as [|c s IH]; cbn [str_forall].
  - intros _. rewrite app_empty_l. by destruct (format_from h FText rest).
  - intros [[Hc1 Hc2]%not_brace_inv Hs]%andb_true_iff.
    rewrite app_cons. cbn [format_from]. rewrite Hc1, Hc2, (IH Hs).
    by destruct (format_from h FText rest).
Qed.

Lemma format_from_field h acc f rest :
  str_forall is_field_name_char f = true ->
  format_from h (FField acc) (f +:+ String "}" rest)
  = rbind (format_field h (acc +:+ f)) (fun v =>
      rmap (String.append v) (format_from h FText rest)).
Proof.
  revert acc. induction f as [|c f IH]; intros acc; cbn [str_forall].
  - intros _. rewrite app_empty_l, app_empty_r. reflexivity.
  - unfold is_field_name_char at 1.
    intros [[Hp Hc%negb_true_iff]%andb_true_iff Hf]%andb_true_iff.
    rewrite app_cons. cbn [format_from]. rewrite Hc, Hp, (IH _ Hf).
    by rewrite str_app_assoc.
Qed.

Lemma isdigit_value c :
  isdigit c = true -> (0 <= digit_value c <= 9)%Z.
Proof.
  unfold isdigit, in_range, digit_value.
  intros [H1%Nat.leb_le H2%Nat.leb_le]%andb_true_iff. lia.
Qed.

Lemma decimal_from_ge n s :
  str_forall isdigit s = true -> (0 <= n)%Z -> (n <= decimal_from n s)%Z.
Proof.
  revert n. induction s as [|c s IH]; intros n; cbn [str_forall decimal_from];
    [lia|].
  intros [Hc%isdigit_value Hs]%andb_true_iff Hn.
  specialize (IH (n * 10 + digit_value c)%Z Hs). lia.
Qed.

Lemma get_integer_decimal n s :
  str_forall isdigit s = true -> (0 <= n <= PY_SSIZE_T_MAX)%Z ->
  get_integer n s
  = if (decimal_from n s <=? PY_SSIZE_T_MAX)%Z then Ok (decimal_from n s)
    else Raise ValueError.
Proof.
  revert n. induction s as [|c s IH]; intros n;
    cbn [str_forall decimal_from get_integer].
  - intros _ Hn. by rewrite (proj2 (Z.leb_le _ _)) by lia.
  - intros [Hc Hs]%andb_true_iff Hn.
    pose proof (isdigit_value c Hc) as Hd.
    pose proof (decimal_from_ge (n * 10 + digit_value c) s Hs) as Hge.
    change PY_SSIZE_T_MAX with 9223372036854775807%Z in *.
    destruct (Z.gtb_spec n ((9223372036854775807 - digit_value c) / 10)) as [Hgt|Hle].
    + assert (9223372036854775807 < n * 10 + digit_value c)%Z as Hover
        by (revert Hgt; generalize (digit_value c) Hd; intros d ? ?;
            Z.to_euclidean_division_equations; lia).
      by rewrite (proj2 (Z.leb_gt _ _)) by lia.
    + apply IH; [done|].
      revert Hle. generalize (digit_value c) Hd. intros d ? ?.
      Z.to_euclidean_division_equations. lia.
Qed.



(** ** The chip and board pattern *)

Lemma matches_nullable r : nullable r = true -> matches r EmptyString.
Proof.
  induction r as [| |p|r IHr s IHs|r IHr s IHs|r IHr]; cbn [nullable];
    try done.
  - intros _. constructor.
  - intros [Hr Hs]%andb_true_iff.
    change EmptyString with (EmptyString +:+ EmptyString).
    constructor; auto.
  - intros [Hr|Hs]%orb_true_iff;
      [apply matches_alt_l | apply matches_alt_r]; auto.
  - intros _. constructor.
Qed.

Lemma matches_void w : ~ matches Void w.
Proof. inversion 1. Qed.

Lemma matches_cat' r s w : matches (cat r s) w -> matches (Cat r s) w.
Proof.
  assert (forall w, matches s w -> matches (Cat Eps s) w) as Heps.
  { intros w' H. rewrite <- (app_empty_l w'). constructor; [constructor|done]. }
  destruct r, s; cbn [cat]; try done;
    try (by intros H%matches_void); try (by apply Heps).
Qed.

Lemma matches_alt' r s w : matches (alt r s) w -> matches (Alt r s) w.
Proof.
  destruct r, s; cbn [alt]; try done;
    try (by intros H%matches_void);
    try (by intros H; apply matches_alt_l);
    try (by intros H; apply matches_alt_r).
Qed.

Lemma matches_deriv c r w :
  matches (deriv c r) w -> matches r (String c w).
Proof.
  revert w. induction r as [| |p|r IHr s IHs|r IHr s IHs|r IHr]; intros w;
    cbn [deriv].
  - by intros H%matches_void.
  - by intros H%matches_void.
  - destruct (p c) eqn:E; [|by intros H%matches_void].
    inversion 1; subst. by constructor.
  - assert (forall w, matches (cat (deriv c r) s) w ->
                      matches (Cat r s) (String c w)) as Hcat.
    { intros w' H%matches_cat'. inversion H; subst.
      rewrite <- app_cons. constructor; auto. }
    destruct (nullable r) eqn:En; [|by apply Hcat].
    intros H%matches_alt'. inversion H; subst; [by apply Hcat|].
    rewrite <- (app_empty_l (String c w)).
    constructor; [by apply matches_nullable | by apply IHs].
  - intros H%matches_alt'.
    inversion H; subst; [apply matches_alt_l | apply matches_alt_r]; auto.
  - intros H%matches_cat'. inversion H; subst.
    rewrite <- app_cons. constructor; auto.
Qed.

Lemma fullmatch_matches r w : fullmatch r w = true -> matches r w.
Proof.
  revert r. induction w as [|c w IH]; intros r; cbn [fullmatch].
  - apply matches_nullable.
  - intros H. by apply matches_deriv, IH.
Qed.

Lemma matches_classes_within P r w :
  classes_within P r -> matches r w -> str_forall P w = true.
Proof.
  intros Hc Hm. induction Hm as [|p c Hp|r s u v _ IHu _ IHv|r s u _ IH
    |r s u _ IH| |r u v _ IHu _ IHv]; cbn [classes_within] in Hc.
  - done.
  - cbn [str_forall]. by rewrite (Hc _ Hp).
  - destruct Hc as [Hr Hs]. rewrite str_forall_app.
    by rewrite (IHu Hr), (IHv Hs).
  - destruct Hc as [Hr Hs]. auto.
  - destruct Hc as [Hr Hs]. auto.
  - done.
  - rewrite str_forall_app. by rewrite (IHu Hc), (IHv Hc).
Qed.

Lemma chip_regex_classes : classes_within isalnum chip_regex.
Proof.
  assert (forall c, isalpha c = true -> isalnum c = true) as Ha.
  { intros c H. unfold isalnum. by rewrite H. }
  assert (forall c, isdigit c = true -> isalnum c = true) as Hd.
  { intros c H. unfold isalnum. rewrite H. apply orb_true_r. }
  cbv [chip_regex between plus opt power upto classes_within Nat.sub].
  repeat match goal with |- _ /\ _ => split end; auto.
Qed.

Lemma matches_cls_inv p w :
  matches (Cls p) w -> exists c, w = String c EmptyString /\ p c = true.
Proof. inversion 1; subst. eauto. Qed.

Lemma matches_dollar w :
  matches dollar w -> w = EmptyString \/ w = String chr_nl EmptyString.
Proof.
  unfold dollar, opt. inversion 1 as [| | |? ? ? H1| ? ? ? H1| |]; subst.
  - apply matches_cls_inv in H1 as (c & -> & Hc%Ascii.eqb_eq). subst. auto.
  - inversion H1. auto.
Qed.

(** X17. An identifier that the pattern takes for chip or board specific
    either is made of letters and digits only (a newline may end it), or
    starts with [brd], in any case, and a digit.  So a component such as
    [bluetooth_stack], with another character and another start, is never
    stripped. *)
Theorem chip_specific_shape (s : string) :
  chip_specific s = true ->
  (exists u, (s = u \/ s = u +:+ String chr_nl EmptyString)
             /\ str_forall isalnum u = true)
  \/ (exists b r d n rest,
        s = String b (String r (String d (String n rest)))
        /\ (b = "b" \/ b = "B")%char /\ (r = "r" \/ r = "R")%char
        /\ (d = "d" \/ d = "D")%char /\ isdigit n = true).
Proof.
  intros H%fullmatch_matches. unfold CHIP_SPECIFIC_REGEX in H.
  inversion H as [| |? ? u v Hu Hv| | | |]; subst.
  inversion Hu as [| | |? ? ? Hc|? ? ? Hb| |]; subst.
  - left. exists u. split.
    + apply matches_dollar in Hv as [-> | ->]; [left|right]; [|done].
      by rewrite app_empty_r.
    + eapply matches_classes_within; [apply chip_regex_classes|done].
  - right. unfold board_regex, letter, plus in Hb.
    inversion Hb as [| |? ? u1 v1 H1 H1'| | | |]; subst.
    inversion H1' as [| |? ? u2 v2 H2 H2'| | | |]; subst.
    inversion H2' as [| |? ? u3 v3 H3 H3'| | | |]; subst.
    inversion H3' as [| |? ? u4 v4 H4 H4'| | | |]; subst.
    inversion H4 as [| |? ? u5 v5 H5 H5'| | | |]; subst.
    apply matches_cls_inv in H1 as (b & -> & Hb1).
    apply matches_cls_inv in H2 as (r & -> & Hr1).
    apply matches_cls_inv in H3 as (d & -> & Hd1).
    apply matches_cls_inv in H5 as (n & -> & Hn1).
    exists b, r, d, n. eexists. split; [reflexivity|].
    apply orb_true_iff in Hb1, Hr1, Hd1.
    rewrite !Ascii.eqb_eq in Hb1, Hr1, Hd1. auto.
Qed.

Lemma chip_specific_shape_witness :
  (exists u, ("mgm210pb32jia" = u
              \/ "mgm210pb32jia" = u +:+ String chr_nl EmptyString)
             /\ str_forall isalnum u = true)
  \/ (exists b r d n rest,
        "mgm210pb32jia" = String b (String r (String d (String n rest)))
        /\ (b = "b" \/ b = "B")%char /\ (r = "r" \/ r = "R")%char
        /\ (d = "d" \/ d = "D")%char /\ isdigit n = true).
Proof.
  apply chip_specific_shape. vm_compute. reflexivity.
Defined.

(** ** More on the CMake rewrite *)

Lemma prefix_map_lines_ok absolute items block :
  prefix_map_lines absolute items = Ok block <->
  Forall (fun item => str_in dquote (absolute item.1) = false) items
  /\ block
     = (fun item => "    " +:+ dquote +:+ "-ffile-prefix-map="
                      +:+ absolute item.1 +:+ "=" +:+ item.2 +:+ dquote)
       <$> items.
Proof.
  revert block. induction items as [|[src dst] items IH]; intros block;
    cbn [prefix_map_lines].
  - split; [by intros [= <-]|by intros [_ ->]].
  - destruct (str_in dquote (absolute src)) eqn:E.
    + split; [done|]. intros [H _]. apply Forall_cons in H as [H _].
      cbn in H. congruence.
    + destruct (prefix_map_lines absolute items) as [b|e]; cbn [rmap].
      * split.
        -- intros [= <-]. destruct (proj1 (IH b) eq_refl) as [H ->].
           split; [by apply Forall_cons|done].
        -- intros [H ->]. apply Forall_cons in H as [_ H]. csimpl.
           do 2 f_equal. symmetry.
           assert (Ok b = Ok ((fun item => "    " +:+ dquote
                      +:+ "-ffile-prefix-map=" +:+ absolute item.1 +:+ "="
                      +:+ item.2 +:+ dquote) <$> items)) as [= ->]; [|done].
           by apply IH.
      * split; [done|]. intros [H ->]. apply Forall_cons in H as [_ H].
        assert (Raise e = Ok ((fun item => "    " +:+ dquote
                   +:+ "-ffile-prefix-map=" +:+ absolute item.1 +:+ "="
                   +:+ item.2 +:+ dquote) <$> items)); [|done].
        by apply IH.
Qed.

(** X18. The dict of the three roots is keyed by the paths as they were
    given: it keeps one item for each distinct given path, and the later
    logical path wins: the toolchain root always maps to [/toolchain], the
    build root to [/src] unless it is also the toolchain root, and the SDK
    root to [/gecko_sdk] only when it is neither.  The paths are made
    absolute only afterwards, item by item: the block is built exactly when
    no absolute path has a double quote, and then has one line
    [-ffile-prefix-map=<absolute path>=<logical path>] for each item, in the
    order of the dict, so that two given paths with the same absolute path
    give two lines. *)
Theorem prefix_map_items (absolute : string -> string)
    (sdk build_dir toolchain src dst : string) :
  NoDup (prefix_map sdk build_dir toolchain).*1
  /\ ((src, dst) ∈ prefix_map sdk build_dir toolchain <->
      (src = toolchain /\ dst = "/toolchain")
      \/ (src = build_dir /\ build_dir ≠ toolchain /\ dst = "/src")
      \/ (src = sdk /\ sdk ≠ build_dir /\ sdk ≠ toolchain
          /\ dst = "/gecko_sdk"))
  /\ (forall block,
        prefix_map_lines absolute (prefix_map sdk build_dir toolchain)
        = Ok block <->
        Forall (fun item => str_in dquote (absolute item.1) = false)
               (prefix_map sdk build_dir toolchain)
        /\ block
           = (fun item => "    " +:+ dquote +:+ "-ffile-prefix-map="
                            +:+ absolute item.1 +:+ "=" +:+ item.2
                            +:+ dquote)
             <$> prefix_map sdk build_dir toolchain).
Proof.
  split_and!; [| |intros block; apply prefix_map_lines_ok];
    unfold prefix_map; cbn [dict_set];
    (destruct (decide (sdk = build_dir)) as [->|H1]; cbn [dict_set];
     [destruct (decide (build_dir = toolchain)) as [->|H2]; csimpl
     |destruct (decide (sdk = toolchain)) as [->|H2]; cbn [dict_set]; csimpl;
      [|destruct (decide (build_dir = toolchain)) as [->|H3]; csimpl]]);
    try (repeat (apply NoDup_cons; split);
         rewrite ?elem_of_cons, ?elem_of_nil; try naive_solver;
         apply NoDup_nil_2);
    rewrite ?elem_of_cons, ?elem_of_nil; naive_solver.
Qed.

Lemma prefix_map_items_witness :
  prefix_map "sdk" "./sdk" "gcc"
  = [("sdk", "/gecko_sdk"); ("./sdk", "/src"); ("gcc", "/toolchain")]
  /\ prefix_map_lines (fun path : string =>
         if decide (path = "./sdk") then "/work/sdk" else "/work/" +:+ path)
       (prefix_map "sdk" "./sdk" "gcc")
     = Ok ["    " +:+ dquote +:+ "-ffile-prefix-map=/work/sdk=/gecko_sdk"
             +:+ dquote;
           "    " +:+ dquote +:+ "-ffile-prefix-map=/work/sdk=/src"
             +:+ dquote;
           "    " +:+ dquote +:+ "-ffile-prefix-map=/work/gcc=/toolchain"
             +:+ dquote].
Proof.
  split; [vm_compute; reflexivity|].
  apply (proj2 (proj2 (prefix_map_items _ "sdk" "./sdk" "gcc"
                         EmptyString EmptyString))).
  split; [vm_compute; repeat constructor|vm_compute; reflexivity].
Defined.

(** X19. The list of output lines is built unless one of the three roots,
    made absolute, has a double quote in it; then, and only then, the
    rewrite stops, with an assertion error. *)
Theorem fixed_cmake_quote (absolute : string -> string)
    (sdk build_dir toolchain cmake_text : string) :
  (fixed_cmake absolute sdk build_dir toolchain cmake_text
   = Raise AssertionError
   <-> str_in dquote (absolute sdk) = true
       \/ str_in dquote (absolute build_dir) = true
       \/ str_in dquote (absolute toolchain) = true)
  /\ (forall e,
        fixed_cmake absolute sdk build_dir toolchain cmake_text = Raise e ->
        e = AssertionError).
Proof.
  unfold fixed_cmake, prefix_map. cbn [dict_set].
  destruct (decide (sdk = build_dir)) as [->|H1]; cbn [dict_set].
  - destruct (decide (build_dir = toolchain)) as [->|H2];
      cbn [prefix_map_lines]; unfold rmap, rbind;
      repeat match goal with
             | |- context [str_in dquote ?x] =>
                 destruct (str_in dquote x) eqn:?
             end; split; try (intros e [= <-]; done); naive_solver.
  - destruct (decide (sdk = toolchain)) as [->|H2]; cbn [dict_set].
    + cbn [prefix_map_lines]; unfold rmap, rbind;
        repeat match goal with
               | |- context [str_in dquote ?x] =>
                   destruct (str_in dquote x) eqn:?
               end; split; try (intros e [= <-]; done); naive_solver.
    + destruct (decide (build_dir = toolchain)) as [->|H3];
        cbn [prefix_map_lines]; unfold rmap, rbind;
        repeat match goal with
               | |- context [str_in dquote ?x] =>
                   destruct (str_in dquote x) eqn:?
               end; split; try (intros e [= <-]; done); naive_solver.
Qed.

Lemma str_in_app_r p s t : str_in p s = true -> str_in p (s +:+ t) = true.
Proof.
  assert (forall s, startswith p s = true -> startswith p (s +:+ t) = true)
    as Hsw.
  { clear. induction p as [|a p IH]; intros s; [done|].
    destruct s as [|b s]; cbn [startswith]; [done|].
    intros [Hab H]%andb_true_iff. apply Ascii.eqb_eq in Hab as <-.
    rewrite app_cons. cbn [startswith].
    by rewrite Ascii.eqb_refl, IH. }
  induction s as [|c s IH]; cbn [str_in].
  - rewrite orb_false_r. intros H. by apply startswith_str_in, Hsw.
  - intros [H|H]%orb_true_iff; rewrite app_cons; cbn [str_in];
      apply orb_true_iff.
    + left. by apply (Hsw (String c s)).
    + right. by apply IH.
Qed.

Lemma str_in_nonempty a p s : str_in (String a p) s = true -> s ≠ EmptyString.
Proof. by destruct s. Qed.

Lemma lstrip_keeps a p s :
  isspace a = false ->
  str_in (String a p) s = true -> str_in (String a p) (lstrip s) = true.
Proof.
  intros Ha. induction s as [|c s IH]; [done|]. cbn [lstrip].
  destruct (isspace c) eqn:Ec; [|done].
  cbn [str_in startswith].
  assert (Ascii.eqb a c = false) as ->; [|done].
  apply not_true_iff_false. intros E%Ascii.eqb_eq. congruence.
Qed.

Lemma startswith_rstrip_keep p s :
  p ≠ EmptyString -> rstrip p = p ->
  startswith p s = true -> startswith p (rstrip s) = true.
Proof.
  revert s. induction p as [|a p IH]; intros s Hne Hp; [done|].
  destruct s as [|b s]; cbn [startswith]; [done|].
  intros [Hab Hs]%andb_true_iff. apply Ascii.eqb_eq in Hab as <-.
  cbn [rstrip] in Hp. destruct (rstrip p) as [|x r] eqn:Er.
  - destruct (isspace a) eqn:Ea; [done|]. injection Hp as <-.
    rewrite rstrip_cons_nonspace by done. cbn [startswith].
    by rewrite Ascii.eqb_refl.
  - injection Hp as Hp. assert (p ≠ EmptyString) as Hp' by (by rewrite <- Hp).
    assert (startswith p (rstrip s) = true) as Hr.
    { apply IH; [done|congruence|done]. }
    rewrite rstrip_cons_nonempty.
    + cbn [startswith]. by rewrite Ascii.eqb_refl.
    + destruct p; [done|]. by destruct (rstrip s).
Qed.

Lemma rstrip_keeps p s :
  p ≠ EmptyString -> rstrip p = p ->
  str_in p s = true -> str_in p (rstrip s) = true.
Proof.
  intros Hne Hp. induction s as [|c s IH]; cbn [str_in].
  - rewrite orb_false_r. by destruct p.
  - intros [H|H]%orb_true_iff.
    + by apply startswith_str_in, startswith_rstrip_keep.
    + specialize (IH H). rewrite rstrip_cons_nonempty.
      * cbn [str_in]. rewrite IH. apply orb_true_r.
      * destruct p; [done|]. by eapply str_in_nonempty.
Qed.

Lemma str_in_replaced s :
  str_in ">:" s = true ->
  str_in ">:SHELL:" (str_replace ">:" ">:SHELL:" s) = true.
Proof.
  unfold str_replace. induction s as [|c s IH]; [done|].
  destruct (startswith ">:" (String c s)) eqn:E.
  - intros _. apply startswith_gt_colon in E as [-> [s' ->]].
    rewrite R_hit. apply startswith_str_in. apply (startswith_self ">:SHELL:").
  - cbn [str_in]. rewrite E. cbn [orb]. intros H.
    rewrite R_miss by done. cbn [str_in]. rewrite (IH H). apply orb_true_r.
Qed.

(** X20. A line that has [>:] carries [>:SHELL:] once it is fixed, so it
    is not taken for a line to fix again: fixing is idempotent on every
    line with [>:], and on every line that needed no fix. *)
Theorem fix_line_idempotent (line : string) :
  str_in ">:" line = true \/ needs_shell line = false ->
  needs_shell (fix_line line) = false
  /\ fix_line (fix_line line) = fix_line line.
Proof.
  intros H.
  assert (needs_shell (fix_line line) = false) as Hn.
  { unfold fix_line. destruct (needs_shell line) eqn:E.
    - destruct H as [H|H]; [|done]. unfold needs_shell at 1.
      assert (str_in ">:SHELL:"
                ("    " +:+ dquote
                 +:+ strip (str_replace ">:" ">:SHELL:" line) +:+ dquote)
              = true) as ->; [|done].
      apply str_in_skip, str_in_skip, str_in_app_r. unfold strip.
      apply rstrip_keeps; [done|done|].
      apply (lstrip_keeps ">"); [done|]. by apply str_in_replaced.
    - done. }
  split; [done|]. unfold fix_line at 1. by rewrite Hn.
Qed.

Lemma fix_line_idempotent_witness :
  let line := "    $<$<COMPILE_LANGUAGE:C>:-imacros sl_gcc_preinclude.h>" in
  needs_shell (fix_line line) = false
  /\ fix_line (fix_line line) = fix_line line.
Proof.
  intros line. apply fix_line_idempotent. left. vm_compute. reflexivity.
Defined.

Lemma split_chr_nonempty c s : split_chr c s ≠ [].
Proof.
  destruct s as [|a s]; cbn [split_chr]; [done|].
  destruct (Ascii.eqb a c); [done|]. by destruct (split_chr c s).
Qed.

Lemma str_join_split s : str_join newline (split_chr chr_nl s) = s.
Proof.
  induction s as [|a s IH]; [done|]. cbn [split_chr].
  pose proof (split_chr_nonempty chr_nl s) as Hne.
  destruct (Ascii.eqb a chr_nl) eqn:E.
  - apply Ascii.eqb_eq in E as ->.
    destruct (split_chr chr_nl s) as [|h t]; [done|].
    cbn [str_join] in *. by rewrite IH.
  - destruct (split_chr chr_nl s) as [|h t]; [done|].
    destruct t; cbn [str_join] in *; by rewrite <- IH.
Qed.

Lemma str_join_app sep l1 l2 :
  l1 ≠ [] -> l2 ≠ [] ->
  str_join sep (l1 ++ l2) = str_join sep l1 +:+ sep +:+ str_join sep l2.
Proof.
  intros H1 H2. induction l1 as [|x l1 IH]; [done|].
  destruct l1 as [|y l1].
  - destruct l2; [done|]. reflexivity.
  - cbn [app str_join] in *. rewrite IH by done.
    by rewrite !str_app_assoc.
Qed.

Lemma universal_newlines_no_cr text :
  str_forall (fun c => negb (Ascii.eqb c chr_cr)) text = true ->
  universal_newlines text = text.
Proof.
  induction text as [|c s IH]; [done|]. cbn [str_forall universal_newlines].
  intros [Hc%negb_true_iff Hs]%andb_true_iff. by rewrite Hc, (IH Hs).
Qed.



(** ** Failing checks and what an aborted run leaves *)

Lemma patch_prev_line_fails project_defines lines k prev define new_lines :
  lines !! k = Some prev ->
  str_in "#ifndef" prev = true \/ str_in "#warning" prev = true ->
  guard_checks_pass project_defines define prev = false ->
  patch_prev_line project_defines lines (S k) define new_lines
  = Raise (if str_in "#ifndef" prev
           then match match_ifndef prev with
                | None => AttributeError
                | Some _ => AssertionError
                end
           else AssertionError).
Proof.
  intros Hg Hor Hpass. unfold patch_prev_line, rbind.
  rewrite pred_index, (getitem_nat _ _ _ Hg).
  unfold guard_checks_pass in Hpass.
  destruct (str_in "#ifndef" prev) eqn:E1.
  - destruct (match_ifndef prev) as [g|]; [|done].
    destruct (decide (g = define)) as [->|Hne]; [|done].
    rewrite bool_decide_eq_true_2 in Hpass by done. cbn [andb] in Hpass.
    apply negb_false_iff in Hpass. by rewrite Hpass.
  - destruct Hor as [?|E2]; [done|]. by rewrite E2, Hpass.
Qed.

(** X22. A define that follows a line with [#ifndef] or [#warning] which
    fails the checks made on it stops the run with an uncaught exception
    and no diagnostic: an attribute error when the line has [#ifndef] but
    the guard pattern does not match at its start, an assertion error when
    the guard names another define, when the project already has a define
    of that name, or when the warning has another shape. *)
Theorem failed_guard_check
    (c_defines : list (string * string)) (project_defines : list config_entry)
    (git_repo_hash : string) (lines : list string) (st : scan) (k : nat)
    (prev line define template : string) (w : world) :
  lines !! k = Some prev ->
  find_define line c_defines = Some (define, template) ->
  str_in "#ifndef" prev = true \/ str_in "#warning" prev = true ->
  guard_checks_pass project_defines define prev = false ->
  scan_line c_defines project_defines git_repo_hash lines st (S k) line w
  = (Raise (if str_in "#ifndef" prev
            then match match_ifndef prev with
                 | None => AttributeError
                 | Some _ => AssertionError
                 end
            else AssertionError), w).
Proof.
  intros Hk Hf Hor Hpass.
  rewrite scan_line_patch with (define := define) (template := template)
    by done.
  destruct (alignment_of_ok define line) as [a Ha].
  { by apply find_define_Some in Hf as [_ ?]. }
  apply patch_line_prev_raise with (a := a); [done|].
  by apply patch_prev_line_fails.
Qed.

Lemma failed_guard_check_witness :
  scan_line [("FOO", "2")] [] "0123abcd"
    ["  #ifndef FOO"; "#define FOO 1"; "#endif"]
    (Scan ["  #ifndef FOO"] ∅ {[ "FOO" ]}) 1 "#define FOO 1" (World ∅ [])
  = (Raise (if str_in "#ifndef" "  #ifndef FOO"
            then match match_ifndef "  #ifndef FOO" with
                 | None => AttributeError
                 | Some _ => AssertionError
                 end
            else AssertionError), World ∅ []).
Proof.
  apply (failed_guard_check [("FOO", "2")] [] "0123abcd"
           ["  #ifndef FOO"; "#define FOO 1"; "#endif"]
           (Scan ["  #ifndef FOO"] ∅ {[ "FOO" ]}) 0 "  #ifndef FOO"
           "#define FOO 1" "FOO" "2" (World ∅ [])).
  - reflexivity.
  - reflexivity.
  - left. reflexivity.
  - reflexivity.
Defined.

Lemma take_while_forall p s : str_forall p (take_while p s) = true.
Proof.
  induction s as [|c s IH]; [done|]. cbn [take_while].
  destruct (p c) eqn:E; [|done]. cbn [str_forall]. by rewrite E, IH.
Qed.

(** X23. The guard pattern captures upper-case letters, digits and
    underscores only, so a requested name with any other character never
    passes the check after a line with [#ifndef]: such a define cannot be
    injected under a guard. *)
Theorem guard_needs_upper_case
    (project_defines : list config_entry) (define prev : string) :
  str_forall is_guard_char define = false ->
  str_in "#ifndef" prev = true ->
  match_ifndef prev ≠ Some define
  /\ guard_checks_pass project_defines define prev = false.
Proof.
  intros Hd Hp.
  assert (match_ifndef prev ≠ Some define) as Hne.
  { unfold match_ifndef. destruct (startswith "#ifndef" prev); [|done].
    destruct (is_empty _ || is_empty _); [done|]. intros [= <-].
    by rewrite take_while_forall in Hd. }
  split; [done|]. unfold guard_checks_pass. rewrite Hp.
  by rewrite bool_decide_eq_false_2.
Qed.

Lemma guard_needs_upper_case_witness :
  match_ifndef "#ifndef app_version" ≠ Some "app_version"
  /\ guard_checks_pass [] "app_version" "#ifndef app_version" = false.
Proof.
  apply guard_needs_upper_case; vm_compute; reflexivity.
Defined.

(** X24. A define whose preceding line has neither [#ifndef] nor
    [#warning] changes its own line only: every other line of the header
    is copied, in order. *)
Theorem plain_define_replaced
    (c_defines : list (string * string)) (project_defines : list config_entry)
    (git_repo_hash : string) (before after : list string)
    (prev line N template a v : string) (unused : gset string) (w : world) :
  let lines := before ++ [line] ++ after in
  Forall (fun l => consumed_by c_defines l = None) (before ++ after) ->
  find_define line c_defines = Some (N, template) ->
  getitem lines (Z.of_nat (length before) - 1) = Ok prev ->
  str_in "#ifndef" prev = false ->
  str_in "#warning" prev = false ->
  alignment_of N line = Ok a ->
  format git_repo_hash template = Ok v ->
  N ∈ unused ->
  scan_lines c_defines project_defines git_repo_hash lines 0 lines
    (Scan [] ∅ unused) w
  = (Ok (Scan (before ++ ["#define " +:+ N +:+ a +:+ v] ++ after)
              {[ N := v ]} (unused ∖ {[ N ]})), w).
Proof.
  intros lines Hun Hf Hprev H1 H2 Ha Hv Hu.
  apply Forall_app in Hun as [Hb Hafter].
  unfold lines at 2.
  apply scan_lines_single with (template := template); try done.
  unfold patch_prev_line, rbind. fold lines. by rewrite Hprev, H1, H2.
Qed.

Lemma plain_define_replaced_witness :
  scan_lines [("FOO", "2")] [] "0123abcd"
    (["// config"] ++ ["#define FOO 1"] ++ ["// end"]) 0
    (["// config"] ++ ["#define FOO 1"] ++ ["// end"])
    (Scan [] ∅ {[ "FOO" ]}) (World ∅ [])
  = (Ok (Scan (["// config"] ++ ["#define " +:+ "FOO" +:+ " " +:+ "2"]
               ++ ["// end"])
              {[ "FOO" := "2" ]} ({[ "FOO" ]} ∖ {[ "FOO" ]})),
     World ∅ []).
Proof.
  apply (plain_define_replaced [("FOO", "2")] [] "0123abcd"
           ["// config"] ["// end"] "// config" "#define FOO 1" "FOO"
           "2" " " "2" {[ "FOO" ]} (World ∅ [])).
  - repeat constructor.
  - reflexivity.
  - reflexivity.
  - reflexivity.
  - reflexivity.
  - reflexivity.
  - reflexivity.
  - apply (bool_decide_unpack _). vm_compute. exact I.
Defined.

(** X25. There is no rollback: when the run stops in a later header, a
    header patched before it keeps the text that the patch wrote. *)
Theorem patched_header_kept
    (c_defines : list (string * string)) (project_defines : list config_entry)
    (git_repo_hash config_f : string) (rest : list string)
    (w w1 w' : world) (unused1 : gset string) (r : result unit) :
  patch_header c_defines project_defines git_repo_hash config_f
    (list_to_set (c_defines.*1)) w = (Ok unused1, w1) ->
  config_f ∉ rest ->
  inject_defines c_defines project_defines git_repo_hash (config_f :: rest) w
  = (r, w') ->
  files w' !! config_f = files w1 !! config_f.
Proof.
  intros Hh Hnot Hrun.
  assert (exists r1 w2,
            patch_headers c_defines project_defines git_repo_hash rest
              unused1 w1 = (r1, w2)
            /\ files w' = files w2) as (r1 & w2 & Hph & ->).
  { apply inject_defines_inv in Hrun
      as [(u & H & _)|[(u & w2 & H & _ & _ & ->)|(e & H & _)]];
      cbn [patch_headers] in H; unfold bind in H; rewrite Hh in H; eauto. }
  eapply patch_headers_frame; [exact Hph|]. by left.
Qed.

Lemma patched_header_kept_witness :
  let w := World {[ "autogen/a.h" := "#define FOO 1";
                    "config/b.h" := "#define FOO 1" ]} [] in
  let h := patch_header [("FOO", "2")] [] "0123abcd" "autogen/a.h"
             (list_to_set ([("FOO", "2")].*1)) w in
  let run := inject_defines [("FOO", "2")] [] "0123abcd"
               ["autogen/a.h"; "config/b.h"] w in
  files run.2 !! "autogen/a.h" = files h.2 !! "autogen/a.h".
Proof.
  intros w h run.
  apply (patched_header_kept [("FOO", "2")] [] "0123abcd" "autogen/a.h"
           ["config/b.h"] w h.2 run.2 ∅ run.1).
  - vm_compute. reflexivity.
  - apply (bool_decide_unpack _). vm_compute. exact I.
  - vm_compute. reflexivity.
Defined.
